(** * tenchmark: a shallow embedding of [main.go]

    The model follows the source file top-down:
    - [GoInt]      : Go's [int] on a 64-bit platform (two's complement, wrap-around);
    - [Slice]      : bounds-checked indexing of [[]int], a failed check is a panic;
    - [Thrift]     : the case executor [call] over an abstract [Protocol];
    - [Worker]     : [Processor.process], the per-worker loop;
    - [Sorting]    : the in-place quicksort [sort];
    - [Report]     : [collect], its percentile lookup [v] and the report lines;
    - [Dispatcher] : the work split of [main];
    - [Startup]    : [get_transport_wrapper] and [main] up to that split.
    The theorems come after the model, one section per component. *)

From Stdlib Require Import ZArith List Lia Bool QArith.
From Stdlib Require Import Permutation Sorted.
From Stdlib Require String.
From Equations Require Import Equations.
Import ListNotations.

Import String.StringSyntax.

Abbreviation string := String.string.
Local Open Scope string_scope.
Local Open Scope Z_scope.

(** ** Run-time panics *)

Inductive panic : Type :=
| IndexOutOfRange (index len : Z)
| PanicMsg (msg : string).

Inductive outcome (A : Type) : Type :=
| Panic (p : panic)
| Done (a : A).
Arguments Panic {A} p.
Arguments Done {A} a.

Definition obind {A B : Type} (x : outcome A) (k : A -> outcome B) : outcome B :=
  match x with
  | Panic p => Panic p
  | Done a => k a
  end.

Notation "x <- e ;; k" := (obind e (fun x => k))
  (at level 61, e at next level, right associativity).
Notation "' pat <- e ;; k" := (obind e (fun x => match x with pat => k end))
  (at level 61, pat pattern, e at next level, right associativity).

(** ** Go's [int] *)

Module GoInt.

(** [int] is 64 bits wide on the platforms the tool is built for. *)
Definition bits : Z := 64.
Definition min_int : Z := - 2 ^ (bits - 1).
Definition max_int : Z := 2 ^ (bits - 1) - 1.

Definition in_int (z : Z) : Prop := min_int <= z <= max_int.

(** Two's complement wrap-around of a mathematical integer. *)
Definition wrap (z : Z) : Z := (z + 2 ^ (bits - 1)) mod 2 ^ bits - 2 ^ (bits - 1).

(** Arithmetic on values.  Division and remainder truncate towards zero
    ([Z.quot], [Z.rem]) and are used directly: the program only divides
    by positive numbers, where the quotient cannot leave the range.
    Index arithmetic inside a slice (between [-1] and its length) is
    written with the plain operations of [Z] as well. *)
Definition add (a b : Z) : Z := wrap (a + b).
Definition sub (a b : Z) : Z := wrap (a - b).
Definition mul (a b : Z) : Z := wrap (a * b).

(** The conversion [int16(x)]. *)
Definition int16 (z : Z) : Z := (z + 2 ^ 15) mod 2 ^ 16 - 2 ^ 15.

End GoInt.

(** ** Slices of [int] *)

Module Slice.

(** [len(s)], an [int]: a slice never has more than [max_int] elements. *)
Definition len (s : list Z) : Z := Z.of_nat (length s).

(** [s[i]] as an operand. *)
Definition get (s : list Z) (i : Z) : outcome Z :=
  if i <? 0 then Panic (IndexOutOfRange i (len s))
  else match nth_error s (Z.to_nat i) with
       | Some x => Done x
       | None => Panic (IndexOutOfRange i (len s))
       end.

Fixpoint upd (s : list Z) (n : nat) (x : Z) : list Z :=
  match s, n with
  | [], _ => []
  | _ :: t, O => x :: t
  | h :: t, S n' => h :: upd t n' x
  end.

(** [s[i] = x]. *)
Definition set (s : list Z) (i : Z) (x : Z) : outcome (list Z) :=
  if (0 <=? i) && (i <? len s) then Done (upd s (Z.to_nat i) x)
  else Panic (IndexOutOfRange i (len s)).

(** The element an in-range read [s[i]] gives. *)
Definition sample_at (s : list Z) (i : Z) : Z := nth (Z.to_nat i) s 0.

End Slice.

(** ** The case executor (lines 17-83)

    [Protocol] comes from the thriftgo package.  The executor only calls
    its methods and looks at the error each returns, so a protocol is
    modelled by the answer it gives to a call after a history of calls. *)

Module Thrift.

Inductive ttype : Type := T_I16 | T_I32 | T_I64 | T_STRING | T_STRUCT.
Inductive mtype : Type := T_CALL.

Inductive prim : Type :=
| WriteMessageBegin (name : string) (m : mtype) (seqid : Z)
| WriteStructBegin (name : string)
| WriteFieldBegin (name : string) (t : ttype) (index : Z)
| WriteI16 (v : Z)
| WriteI32 (v : Z)
| WriteI64 (v : Z)
| WriteString (v : string)
| WriteFieldStop
| WriteStructEnd
| WriteMessageEnd
| Flush
| ReadMessageBegin
| Skip (t : ttype)
| ReadMessageEnd.

Definition error : Type := string.
Definition trace : Type := list prim.

(** The error (if any) a call returns, given the calls made before it. *)
Definition Protocol : Type := trace -> prim -> option error.

(** [type Case func(proto Protocol) error], with the calls made on the
    connection so far threaded through. *)
Definition Case : Type := Protocol -> trace -> trace * option error.

Definition invoke (p : prim) : Case :=
  fun proto tr => (tr ++ [p], proto tr p).

Definition succeed : Case := fun _ tr => (tr, None).
Definition fail (e : error) : Case := fun _ tr => (tr, Some e).

(** [if err = a; err != nil { return }] followed by [b]. *)
Definition andthen (a b : Case) : Case :=
  fun proto tr =>
    match a proto tr with
    | (tr', Some e) => (tr', Some e)
    | (tr', None) => b proto tr'
    end.

(** [err = a] immediately followed by [err = b]: the first error is
    overwritten before it is looked at. *)
Definition overwritten (a b : Case) : Case :=
  fun proto tr => b proto (fst (a proto tr)).

Infix ">>" := andthen (at level 60, right associativity).

(** A dynamically typed argument ([interface{}]): the four kinds the type
    switch names, and any other type, by its name. *)
Inductive arg : Type :=
| I16 (v : Z)
| I32 (v : Z)
| I64 (v : Z)
| Str (v : string)
| Other (gotype : string).

Definition supported (a : arg) : bool :=
  match a with
  | Other _ => false
  | _ => true
  end.

(** One iteration of [for i, arg := range args]. *)
Definition write_arg (i : Z) (a : arg) : Case :=
  let index := GoInt.int16 (i + 1) in
  match a with
  | I16 v => overwritten (invoke (WriteFieldBegin "i16" T_I16 index)) (invoke (WriteI16 v))
  | I32 v => overwritten (invoke (WriteFieldBegin "i32" T_I32 index)) (invoke (WriteI32 v))
  | I64 v => overwritten (invoke (WriteFieldBegin "i64" T_I64 index)) (invoke (WriteI64 v))
  | Str v => overwritten (invoke (WriteFieldBegin "string" T_STRING index)) (invoke (WriteString v))
  | Other _ => fail "unsupport type"
  end.

Fixpoint write_args (i : Z) (args : list arg) : Case :=
  match args with
  | [] => succeed
  | a :: rest => write_arg i a >> write_args (i + 1) rest
  end.

Definition writeMessageBody (args : list arg) : Case :=
  invoke (WriteStructBegin "whatever") >>
  write_args 0 args >>
  invoke WriteFieldStop >>
  invoke WriteStructEnd >>
  invoke WriteMessageEnd >>
  invoke Flush.

Definition call (name : string) (args : list arg) : Case :=
  invoke (WriteMessageBegin name T_CALL 0) >>
  writeMessageBody args >>
  invoke ReadMessageBegin >>
  invoke (Skip T_STRUCT) >>
  invoke ReadMessageEnd.

Definition is_write (p : prim) : bool :=
  match p with
  | ReadMessageBegin | Skip _ | ReadMessageEnd => false
  | _ => true
  end.

(** The calls the argument loop makes for arguments of supported kinds,
    when none of the value writes fails. *)
Fixpoint field_calls (i : Z) (args : list arg) : trace :=
  match args with
  | [] => []
  | a :: rest =>
      let index := GoInt.int16 (i + 1) in
      match a with
      | I16 v => [WriteFieldBegin "i16" T_I16 index; WriteI16 v]
      | I32 v => [WriteFieldBegin "i32" T_I32 index; WriteI32 v]
      | I64 v => [WriteFieldBegin "i64" T_I64 index; WriteI64 v]
      | Str v => [WriteFieldBegin "string" T_STRING index; WriteString v]
      | Other _ => []
      end ++ field_calls (i + 1) rest
  end.

(** A call made while the outgoing message is being built: a write
    other than the final [Flush]. *)
Definition builds (p : prim) : Prop := is_write p = true /\ p <> Flush.

End Thrift.

(** ** The worker loop (lines 94-124) *)

Module Worker.
Import Thrift.

(** What a worker does not control: the protocol built over its own
    transport, the result of [trans.Open()], and the nanoseconds the
    clock shows to have passed around its [k]-th call of the case. *)
Record connection : Type := {
  proto : Protocol;
  open_error : option error;
  elapsed : nat -> Z
}.

Record result : Type := {
  calls : nat;               (* how many times [p.fn] was called *)
  samples : list Z;          (* what was sent on [p.ch], in order *)
  printed : option error     (* the error printed before returning *)
}.

(** [for i := 0; i < count; i++], with [n] iterations left. *)
Fixpoint process_loop (fn : Case) (c : connection) (n i : nat) (tr : trace) : result :=
  match n with
  | O => {| calls := 0; samples := []; printed := None |}
  | S n' =>
      match fn (proto c) tr with
      | (_, Some e) => {| calls := 1; samples := []; printed := Some e |}
      | (tr', None) =>
          let rest := process_loop fn c n' (S i) tr' in
          {| calls := S (calls rest);
             samples := Z.quot (elapsed c i) 1000 :: samples rest;
             printed := printed rest |}
      end
  end.

Definition process (fn : Case) (c : connection) (count : Z) : outcome result :=
  match open_error c with
  | Some e => Panic (PanicMsg e)
  | None => Done (process_loop fn c (Z.to_nat count) 0 [])
  end.

End Worker.

(** ** Quicksort (lines 126-145) *)

Module Sorting.
Import Slice.

(** [for j := l + 1; j <= r; j++], with [n] iterations left. *)
Fixpoint partition_loop (pivot : Z) (n : nat) (values : list Z) (i j : Z)
  : outcome (list Z * Z) :=
  match n with
  | O => Done (values, i)
  | S n' =>
      vj <- get values j ;;
      if pivot >? vj then
        vi <- get values i ;;
        values1 <- set values i vj ;;
        values2 <- set values1 j vi ;;
        partition_loop pivot n' values2 (i + 1) (j + 1)
      else
        partition_loop pivot n' values i (j + 1)
  end.

(** The body of [sort] between the guard and the recursive calls: it
    returns the slice after the pivot has been put in its place, and [i]. *)
Definition partition (values : list Z) (l r : Z) : outcome (list Z * Z) :=
  pivot <- get values l ;;
  '(values1, i) <- partition_loop pivot (Z.to_nat (r - l)) values (l + 1) (l + 1) ;;
  x <- get values1 (i - 1) ;;
  values2 <- set values1 l x ;;
  values3 <- set values2 (i - 1) pivot ;;
  Done (values3, i).

Lemma partition_loop_index pivot n : forall values i j values' i',
  partition_loop pivot n values i j = Done (values', i') ->
  i <= i' <= i + Z.of_nat n.
Proof.
  induction n as [|n IH]; intros values i j values' i' H.
  - cbn in H. inversion H; subst. lia.
  - cbn [partition_loop] in H.
    destruct (get values j) as [|vj]; cbn in H; [discriminate|].
    destruct (pivot >? vj).
    + destruct (get values i) as [|vi]; cbn in H; [discriminate|].
      destruct (set values i vj) as [|v1]; cbn in H; [discriminate|].
      destruct (set v1 j vi) as [|v2]; cbn in H; [discriminate|].
      apply IH in H. lia.
    + apply IH in H. lia.
Qed.

Lemma partition_index values l r values' i :
  l < r -> partition values l r = Done (values', i) -> l + 1 <= i <= r + 1.
Proof.
  intros Hlr H. unfold partition in H.
  destruct (get values l) as [|pivot]; cbn in H; [discriminate|].
  destruct (partition_loop pivot (Z.to_nat (r - l)) values (l + 1) (l + 1))
    as [|[v1 i1]] eqn:E; cbn in H; [discriminate|].
  destruct (get v1 (i1 - 1)); cbn in H; [discriminate|].
  destruct (set v1 l a); cbn in H; [discriminate|].
  destruct (set a0 (i1 - 1) pivot); cbn in H; [discriminate|].
  inversion H; subst. apply partition_loop_index in E. lia.
Qed.

Definition inspect {A : Type} (a : A) : {b : A | a = b} := exist _ a eq_refl.

(** [sort(values, l, r)]; the slice is updated in place, so the result
    of the first recursive call is what the second one works on. *)
Equations? sort (values : list Z) (l r : Z) : outcome (list Z)
  by wf (Z.to_nat (r - l)) lt :=
  sort values l r with Z_ge_dec l r => {
    | left _ => Done values
    | right _ with inspect (partition values l r) => {
        | exist _ (Panic p) _ => Panic p
        | exist _ (Done (values1, i)) _ =>
            values2 <- sort values1 l (i - 2) ;;
            sort values2 i r } }.
Proof.
  all: match goal with
       | H : partition _ _ _ = Done _ |- _ => apply partition_index in H; lia
       end.
Qed.

End Sorting.

(** ** The collector and its report (lines 147-193) *)

Module Report.
Import Slice.

(** [float64] values are kept as the exact rational they stand for, with
    the two special results a floating-point division can give; the
    rounding of the quotient to 53 bits and the rounding done by the
    [%.2f] and [%.3f] verbs are not modelled. *)
Inductive float64 : Type :=
| Finite (q : Q)
| Inf (negative : bool)
| NaN.

Definition fdiv (a b : Q) : float64 :=
  if Qeq_bool b 0 then
    if Qeq_bool a 0 then NaN else Inf (negb (Qle_bool 0 a))
  else Finite (a / b).

(** The index expression [l*(denominator-1)/denominator-1] of [v].  The
    product is the one operation in it that can leave the range of [int]. *)
Definition cut_index (l denominator : Z) : Z :=
  Z.quot (GoInt.mul l (denominator - 1)) denominator - 1.

(** The closure [v] of [collect], over the sorted samples [s] and their
    number [l]. *)
Definition v (s : list Z) (l : Z) (denominator : Z) : outcome Q :=
  if denominator <=? 0 then
    x <- get s (l - 1) ;; Done (Qmake x 1000)
  else
    x <- get s (cut_index l denominator) ;; Done (Qmake x 1000).

(** A line sent on [pipe]: which [Sprintf] produced it, and from what. *)
Inductive line : Type :=
| ServerAddress (addr : string)
| Blank
| ConcurrencyLevel (c : Z)
| TimeTaken (seconds : Q)
| CompleteRequests (l : Z)
| FailedRequests (n : Z)
| RequestPerSecond (qps : float64)
| Heading
| Percent (p : Z) (ms : Q)
| Longest (p : Z) (ms : Q).

(** Lines 184-191: the percentage printed and the denominator given to
    [v], in the order of the source. *)
Definition percentiles : list (Z * Z) :=
  [(50, 2); (66, 3); (75, 4); (80, 5); (90, 10); (95, 20); (98, 50); (99, 100)].

(** Line 192. *)
Definition longest : Z * Z := (100, -1).

(** The nine lookups of a report, in the order they are made. *)
Definition lookups (s : list Z) : list (outcome Q) :=
  map (fun pd => v s (len s) (snd pd)) (percentiles ++ [longest]).

(** The lines sent so far and, when the goroutine stopped on a panic,
    the panic. *)
Definition sent : Type := (list line * option panic)%type.

Fixpoint send_percentiles (s : list Z) (l : Z) (table : list (Z * Z)) (out : list line)
  : sent :=
  match table with
  | [] =>
      match v s l (snd longest) with
      | Panic e => (out, Some e)
      | Done ms => (out ++ [Longest (fst longest) ms], None)
      end
  | (p, d) :: rest =>
      match v s l d with
      | Panic e => (out, Some e)
      | Done ms => send_percentiles s l rest (out ++ [Percent p ms])
      end
  end.

(** [collect]: [ch] is what was received from [processor.ch] until it
    was closed, [dnano] the nanoseconds that took. *)
Definition collect (addr : string) (concurrency requests : Z) (dnano : Z) (ch : list Z)
  : sent :=
  let l := len ch in
  match Sorting.sort ch 0 (l - 1) with
  | Panic e => ([], Some e)
  | Done s =>
      let duration := (inject_Z dnano / inject_Z (10 ^ 9))%Q in
      let qps := fdiv (inject_Z l) duration in
      send_percentiles s l percentiles
        [ ServerAddress addr;
          Blank;
          ConcurrencyLevel concurrency;
          TimeTaken duration;
          CompleteRequests l;
          FailedRequests (GoInt.sub requests l);
          RequestPerSecond qps;
          Blank;
          Heading ]
  end.

End Report.

(** ** Work split of [main] (lines 246-257) *)

Module Dispatcher.

(** The body of [for i := 0; i < *concurrency; i++]: worker [i] is
    started with [quotient+1] requests when [i < remainder] and with
    [quotient] otherwise.  [n] counts the iterations left. *)
Fixpoint spawn_loop (quotient remainder : Z) (n : nat) (i : Z) : list (Z * Z) :=
  match n with
  | O => []
  | S n' =>
      (if i <? remainder then (i, GoInt.add quotient 1) else (i, quotient))
        :: spawn_loop quotient remainder n' (i + 1)
  end.

(** The [(gid, count)] pairs [processor.process] is started with. *)
Definition spawn (requests concurrency : Z) : list (Z * Z) :=
  let quotient := Z.quot requests concurrency in
  let remainder := Z.rem requests concurrency in
  spawn_loop quotient remainder (Z.to_nat concurrency) 0.

Definition counts (requests concurrency : Z) : list Z :=
  map snd (spawn requests concurrency).

Definition total (l : list Z) : Z := fold_right Z.add 0 l.

(** What the workers do with their shares: worker [gid] runs [fn] over
    the connection [conns gid]. *)
Definition launch (fn : Thrift.Case) (conns : Z -> Worker.connection)
  (requests concurrency : Z) : list (outcome Worker.result) :=
  map (fun '(gid, count) => Worker.process fn (conns gid) count)
      (spawn requests concurrency).

(** The samples sent by the workers reach [processor.ch] in some
    interleaving that keeps the order of each worker. *)
Inductive interleaving : list (list Z) -> list Z -> Prop :=
| interleaving_done : forall ws,
    Forall (fun w => w = []) ws -> interleaving ws []
| interleaving_next : forall before x w after s,
    interleaving (before ++ w :: after) s ->
    interleaving (before ++ (x :: w) :: after) (x :: s).

(** A run in which every connection opens: the collector receives [ch]
    and sends the lines of [collect]. *)
Definition received (results : list (outcome Worker.result)) (ch : list Z) : Prop :=
  exists rs, map Done rs = results /\ interleaving (map Worker.samples rs) ch.

(** The case [main] installs: [call("ping")]. *)
Definition ping : Thrift.Case := Thrift.call "ping" [].

End Dispatcher.

(** ** Start-up of [main] (lines 207-254) *)

Module Startup.

(** The three wrappers of the thriftgo package [get_transport_wrapper]
    chooses from, with the arguments it builds them with. *)
Inductive TransportWrapper : Type :=
| TTransportWrapper
| NewTBufferedTransportFactory (rbuf wbuf : Z)
| NewTFramedTransportFactory (read write : bool).

Definition get_transport_wrapper (name : string) : outcome TransportWrapper :=
  if String.eqb name "none" then Done TTransportWrapper
  else if String.eqb name "buffered" then Done (NewTBufferedTransportFactory 4096 4096)
  else if String.eqb name "framed" then Done (NewTFramedTransportFactory false true)
  else Panic (PanicMsg "invalid transport wrapper").

(** [make(chan int, size)]: the runtime refuses a negative size and a
    size above what it can allocate.  That bound belongs to the Go
    runtime, not to this program, and is a parameter here. *)
Definition makechan (limit size : Z) : outcome Z :=
  if (size <? 0) || (limit <? size) then Panic (PanicMsg "makechan: size out of range")
  else Done size.

(** [main] from its guards to the loop that starts the workers.  The
    fields of the [Processor] are evaluated in the order they are
    written: the wrapper is chosen first and the channel of capacity
    [*concurrency*2] is made after it; the constructors of the thriftgo
    package are taken to return.  The result is the wrapper chosen and
    the [(gid, count)] pairs the workers are started with. *)
Definition main (limit : Z) (requests concurrency : Z) (transport_wrapper : string)
  : outcome (TransportWrapper * list (Z * Z)) :=
  if concurrency <=? 0 then Panic (PanicMsg "Invalid number of concurrency")
  else if requests <=? 0 then Panic (PanicMsg "Invalid number of requests")
  else
    tw <- get_transport_wrapper transport_wrapper ;;
    _ <- makechan limit (GoInt.mul concurrency 2) ;;
    Done (tw, Dispatcher.spawn requests concurrency).

End Startup.

(** ** What a run leaves behind *)

Module Observed.
Import Thrift.

(** The calls a case makes before it signals the end of the argument
    list: beginning the message and the struct, and writing fields. *)
Definition before_stop (p : prim) : bool :=
  match p with
  | WriteMessageBegin _ _ _ | WriteStructBegin _ | WriteFieldBegin _ _ _
  | WriteI16 _ | WriteI32 _ | WriteI64 _ | WriteString _ => true
  | _ => false
  end.


(** The calls made on a worker's connection before its [k]-th call of
    the case, when the calls before were made one after the other. *)
Fixpoint history (fn : Case) (proto : Protocol) (k : nat) : trace :=
  match k with
  | O => []
  | S k' => fst (fn proto (history fn proto k'))
  end.

(** The samples a worker sends for its first [k] calls. *)
Definition durations (c : Worker.connection) (k : nat) : list Z :=
  map (fun i => Z.quot (Worker.elapsed c i) 1000) (seq 0 k).

End Observed.

(** * The model at work *)

Section Examples.
Import Thrift Report.

(** [call("ping")] over a protocol that reports no error: one full
    round trip. *)
Example ping_round_trip :
  Dispatcher.ping (fun _ _ => None) [] =
    ([ WriteMessageBegin "ping" T_CALL 0; WriteStructBegin "whatever";
       WriteFieldStop; WriteStructEnd; WriteMessageEnd; Flush;
       ReadMessageBegin; Skip T_STRUCT; ReadMessageEnd ],
     None).
Proof. reflexivity. Qed.

(** Field indexes start at 1; an error of [WriteFieldBegin] is lost,
    one of the value write ends the call. *)
Example call_two_arguments :
  call "add" [I16 3; Str "x"]
       (fun _ p => match p with
                   | WriteFieldBegin _ _ 1 => Some "lost"
                   | WriteString _ => Some "broken pipe"
                   | _ => None
                   end) [] =
    ([ WriteMessageBegin "add" T_CALL 0; WriteStructBegin "whatever";
       WriteFieldBegin "i16" T_I16 1; WriteI16 3;
       WriteFieldBegin "string" T_STRING 2; WriteString "x" ],
     Some "broken pipe").
Proof. reflexivity. Qed.

Example sort_example :
  Sorting.sort [30; 10; 40; 20; 10] 0 4 = Done [10; 10; 20; 30; 40].
Proof. reflexivity. Qed.

Example sort_range_example :
  Sorting.sort [9; 7; 5; 3; 1] 1 3 = Done [9; 3; 5; 7; 1].
Proof. reflexivity. Qed.

Example sort_out_of_range_example :
  Sorting.sort [2; 1] 0 2 = Panic (IndexOutOfRange 2 2).
Proof. reflexivity. Qed.

(** A worker with four requests whose second call fails: one sample,
    in microseconds, and no further call. *)
Example worker_example :
  Worker.process Dispatcher.ping
    {| Worker.proto := fun h _ => if (Nat.ltb 9 (length h)) then Some "EOF" else None;
       Worker.open_error := None;
       Worker.elapsed := fun k => 120500 + Z.of_nat k |} 4 =
  Done {| Worker.calls := 2; Worker.samples := [120]; Worker.printed := Some "EOF" |}.
Proof. reflexivity. Qed.

(** A report of four samples. *)
Example collect_example :
  collect ":6000" 2 5 2000000 [300; 100; 400; 200] =
    ([ ServerAddress ":6000";
       Blank;
       ConcurrencyLevel 2;
       TimeTaken (inject_Z 2000000 / inject_Z (10 ^ 9));
       CompleteRequests 4;
       FailedRequests 1;
       RequestPerSecond (Finite (inject_Z 4 / (inject_Z 2000000 / inject_Z (10 ^ 9))));
       Blank;
       Heading;
       Percent 50 0.200; Percent 66 0.200; Percent 75 0.300; Percent 80 0.300;
       Percent 90 0.300; Percent 95 0.300; Percent 98 0.300; Percent 99 0.300;
       Longest 100 0.400 ],
     None).
Proof. vm_compute. reflexivity. Qed.

End Examples.

(** * Properties *)

(** ** Integers and slices *)

Section IntFacts.
Import GoInt.

Lemma wrap_id z : in_int z -> wrap z = z.
Proof.
  unfold in_int, wrap, min_int, max_int, bits. intros H.
  change (2 ^ (64 - 1)) with 9223372036854775808 in *.
  change (2 ^ 64) with 18446744073709551616.
  rewrite Z.mod_small; lia.
Qed.

Lemma max_int_value : max_int = 9223372036854775807.
Proof. reflexivity. Qed.

Lemma min_int_value : min_int = -9223372036854775808.
Proof. reflexivity. Qed.

End IntFacts.

(** ** The work split *)

Section DispatcherFacts.
Import GoInt Dispatcher.

Variables quotient remainder : Z.

Lemma spawn_loop_length n i :
  length (spawn_loop quotient remainder n i) = n.
Proof. revert i; induction n; intros; cbn; auto. Qed.

Lemma spawn_loop_nth n : forall i k, (k < n)%nat ->
  nth_error (spawn_loop quotient remainder n i) k =
  Some (i + Z.of_nat k,
        if i + Z.of_nat k <? remainder then add quotient 1 else quotient).
Proof.
  induction n as [|n IH]; intros i k Hk; [lia|].
  destruct k as [|k]; cbn [spawn_loop nth_error].
  - rewrite Z.add_0_r. destruct (i <? remainder); reflexivity.
  - rewrite IH by lia.
    replace (i + 1 + Z.of_nat k) with (i + Z.of_nat (S k)) by lia. reflexivity.
Qed.

Lemma spawn_loop_counts n : forall i c,
  In c (map snd (spawn_loop quotient remainder n i)) ->
  (c = quotient /\ remainder <= i + Z.of_nat n - 1) \/
  (c = add quotient 1 /\ i < remainder).
Proof.
  induction n as [|n IH]; intros i c Hc; cbn in Hc; [contradiction|].
  destruct Hc as [Hc|Hc].
  - destruct (i <? remainder) eqn:E; cbn in Hc; subst c.
    + apply Z.ltb_lt in E. right. split; [reflexivity|lia].
    + apply Z.ltb_ge in E. left. split; [reflexivity|lia].
  - apply IH in Hc. destruct Hc as [[-> H]|[-> H]]; [left|right]; split; auto; lia.
Qed.

Lemma spawn_loop_total n : forall i,
  (i < remainder -> add quotient 1 = quotient + 1) ->
  total (map snd (spawn_loop quotient remainder n i)) =
  Z.of_nat n * quotient + Z.max 0 (Z.min remainder (i + Z.of_nat n) - i).
Proof.
  induction n as [|n IH]; intros i Hadd.
  - cbn. lia.
  - cbn [spawn_loop map total fold_right]. fold (total (map snd (spawn_loop quotient remainder n (i + 1)))).
    rewrite IH by (intros; apply Hadd; lia).
    destruct (Z.ltb_spec i remainder); cbn [snd].
    + rewrite Hadd by assumption. lia.
    + lia.
Qed.

End DispatcherFacts.

Lemma quotient_succ_in_range R C :
  0 < R <= GoInt.max_int -> 0 < C -> 0 < Z.rem R C ->
  GoInt.add (Z.quot R C) 1 = Z.quot R C + 1.
Proof.
  intros HR HC Hrem. unfold GoInt.add. apply wrap_id.
  rewrite Z.rem_mod_nonneg in Hrem by lia.
  rewrite Z.quot_div_nonneg by lia.
  assert (C <> 1) by (intros ->; rewrite Z.mod_1_r in Hrem; lia).
  pose proof (Z.mul_div_le R C ltac:(lia)).
  pose proof (Z.div_pos R C ltac:(lia) ltac:(lia)).
  unfold GoInt.in_int. rewrite max_int_value, min_int_value in *. nia.
Qed.

(** C1: for R > 0 and C > 0 (both of type [int]), the loop of [main]
    that starts the workers assigns a count to each of C workers; worker
    [i] gets R/C + 1 requests when i < R mod C and R/C otherwise; the
    counts are non-negative, add up to R and any two of them differ by
    at most 1. *)
Theorem spawn_partition (R C : Z) :
  0 < R <= GoInt.max_int -> 0 < C <= GoInt.max_int ->
  length (Dispatcher.spawn R C) = Z.to_nat C /\
  (forall i, 0 <= i < C ->
     nth_error (Dispatcher.spawn R C) (Z.to_nat i) =
     Some (i, if i <? R mod C then R / C + 1 else R / C)) /\
  Forall (fun c => 0 <= c) (Dispatcher.counts R C) /\
  Dispatcher.total (Dispatcher.counts R C) = R /\
  (forall a b, In a (Dispatcher.counts R C) -> In b (Dispatcher.counts R C) ->
     -1 <= a - b <= 1).
Proof.
  intros HR HC.
  pose proof (quotient_succ_in_range R C HR ltac:(lia)) as Hadd.
  assert (Hq : Z.quot R C = R / C) by (apply Z.quot_div_nonneg; lia).
  assert (Hr : Z.rem R C = R mod C) by (apply Z.rem_mod_nonneg; lia).
  pose proof (Z.mod_pos_bound R C ltac:(lia)) as Hmod.
  pose proof (Z.div_pos R C ltac:(lia) ltac:(lia)) as Hdiv.
  assert (Hin : forall c, In c (Dispatcher.counts R C) -> c = R / C \/ (c = R / C + 1)).
  { intros c Hc. apply spawn_loop_counts in Hc.
    destruct Hc as [[-> _]|[-> Hlt]]; [left; auto|right].
    rewrite Hadd by lia. lia. }
  repeat split.
  - apply spawn_loop_length.
  - intros i Hi. unfold Dispatcher.spawn. rewrite spawn_loop_nth by lia.
    rewrite Z2Nat.id, Z.add_0_l, Hr, Hq by lia.
    destruct (Z.ltb_spec i (R mod C)); [|reflexivity].
    rewrite <- Hq, Hadd by lia. reflexivity.
  - apply Forall_forall. intros c Hc. apply Hin in Hc. lia.
  - unfold Dispatcher.counts, Dispatcher.spawn. rewrite spawn_loop_total by (intros; apply Hadd; lia).
    rewrite Z2Nat.id, Hq, Hr by lia.
    pose proof (Z.div_mod R C ltac:(lia)). lia.
  - apply Hin in H. apply Hin in H0. lia.
  - apply Hin in H. apply Hin in H0. lia.
Qed.

Lemma spawn_partition_witness :
  Dispatcher.counts 10 3 = [4; 3; 3] /\
  Dispatcher.total (Dispatcher.counts 10 3) = 10.
Proof.
  split; [reflexivity|].
  apply (spawn_partition 10 3); rewrite max_int_value; lia.
Defined.

(** ** Slices *)

Section SliceFacts.
Import Slice.

Lemma get_in_range s i :
  0 <= i < len s -> get s i = Done (sample_at s i).
Proof.
  unfold get, len, sample_at. intros H.
  destruct (Z.ltb_spec i 0); [lia|].
  destruct (nth_error s (Z.to_nat i)) as [x|] eqn:E.
  - f_equal. symmetry. apply nth_error_nth. exact E.
  - apply nth_error_None in E. lia.
Qed.

Lemma get_out_of_range s i :
  i < 0 \/ len s <= i -> get s i = Panic (IndexOutOfRange i (len s)).
Proof.
  unfold get, len. intros H.
  destruct (Z.ltb_spec i 0); [reflexivity|].
  destruct (nth_error s (Z.to_nat i)) eqn:E; [|reflexivity].
  assert (Z.to_nat i < length s)%nat by (apply nth_error_Some; congruence). lia.
Qed.

Lemma sample_at_last s :
  s <> [] -> sample_at s (len s - 1) = last s 0.
Proof.
  intros Hs. destruct (exists_last Hs) as [s' [x ->]].
  unfold sample_at, len. rewrite last_last, length_app. cbn [length].
  replace (Z.to_nat (Z.of_nat (length s' + 1) - 1)) with (length s') by lia.
  apply nth_middle.
Qed.

Lemma sorted_sample_at s i j :
  Sorted Z.le s -> 0 <= i <= j -> j < len s -> sample_at s i <= sample_at s j.
Proof.
  intros Hs Hij Hj. apply Sorted_StronglySorted in Hs; [|exact Z.le_trans].
  unfold sample_at, len in *.
  assert (Hn : (Z.to_nat i <= Z.to_nat j < length s)%nat) by lia.
  clear Hij Hj. revert Hn. generalize (Z.to_nat i) (Z.to_nat j). clear i j.
  induction Hs as [|x s Hs IH Hx]; intros i j Hn; cbn in Hn; [lia|].
  destruct i as [|i], j as [|j]; cbn [nth]; try lia.
  - rewrite Forall_forall in Hx. apply Hx, nth_In. lia.
  - apply IH. lia.
Qed.

End SliceFacts.

(** ** Percentile lookups *)

Section PercentileFacts.
Import Slice Report.

Lemma v_sentinel s d :
  d <= 0 -> s <> [] -> v s (len s) d = Done (Qmake (last s 0) 1000).
Proof.
  intros Hd Hs. unfold v. destruct (Z.leb_spec d 0); [|lia].
  assert (Hlen : 0 < len s) by (destruct s; [congruence|unfold len; cbn [length]; lia]).
  rewrite get_in_range by lia. rewrite sample_at_last by assumption.
  reflexivity.
Qed.

Lemma v_cut s d :
  0 < d -> 0 <= cut_index (len s) d < len s ->
  v s (len s) d = Done (Qmake (sample_at s (cut_index (len s) d)) 1000).
Proof.
  intros Hd Hi. unfold v. destruct (Z.leb_spec d 0); [lia|].
  rewrite get_in_range by assumption. reflexivity.
Qed.

(** Without overflow of the product the index is the mathematical one. *)
Lemma cut_index_exact l d :
  0 <= l -> 0 < d -> l * (d - 1) <= GoInt.max_int ->
  cut_index l d = l * (d - 1) / d - 1.
Proof.
  intros Hl Hd Hmax. unfold cut_index, GoInt.mul.
  rewrite wrap_id by (unfold GoInt.in_int; rewrite min_int_value; nia).
  rewrite Z.quot_div_nonneg by nia. reflexivity.
Qed.

Lemma Qmake_le x y : x <= y -> (Qmake x 1000 <= Qmake y 1000)%Q.
Proof. intros H. unfold Qle. cbn. lia. Qed.

End PercentileFacts.

(** C2 (as amended): the denominators passed for 50, 75, 80, 90, 95, 98
    and 99 are 100 / (100 - P) truncated; for 66 the lookup is called
    with 3, the quotient rounded up, where truncation gives 2.  Rounding
    up gives all eight constants. *)
Theorem percentile_denominators (P d : Z) :
  In (P, d) Report.percentiles ->
  In P [50; 66; 75; 80; 90; 95; 98; 99] /\
  d = Z.quot (100 + (100 - P) - 1) (100 - P) /\
  (P <> 66 -> d = Z.quot 100 (100 - P)) /\
  (P = 66 -> d = 3 /\ Z.quot 100 (100 - P) = 2).
Proof.
  intros H. cbn in H.
  repeat (destruct H as [H|H]; [inversion H; subst; cbn; repeat split; auto 10; intros; lia|]).
  contradiction.
Qed.

Lemma percentile_denominators_witness :
  In (66, 3) Report.percentiles /\ 3 = Z.quot (100 + (100 - 66) - 1) (100 - 66).
Proof.
  assert (H : In (66, 3) Report.percentiles) by (cbn; auto).
  split; [exact H|]. exact (proj1 (proj2 (percentile_denominators 66 3 H))).
Defined.

(** C2 as stated fails at P = 66: the lookup is called with 3 while
    100 / (100 - 66) truncates to 2. *)
Lemma percentile_66_not_truncated :
  In (66, 3) Report.percentiles /\ Z.quot 100 (100 - 66) = 2 /\
  ~ (forall P d, In (P, d) Report.percentiles -> d = Z.quot 100 (100 - P)).
Proof.
  assert (H : In (66, 3) Report.percentiles) by (cbn; auto).
  split; [exact H|]. split; [reflexivity|].
  intros C. specialize (C 66 3 H). discriminate C.
Qed.

(** C6: on the samples 0, 1, ..., 999 the 50% lookup (denominator 2)
    reads index 499 and gives 0.499 ms, the 99% lookup (denominator 100)
    reads index 989 and gives 0.989 ms, and the 100% lookup reads index
    999 and gives 0.999 ms. *)
Theorem lookup_thousand :
  let s := map Z.of_nat (seq 0 1000) in
  Slice.len s = 1000 /\
  Report.cut_index 1000 2 = 499 /\ Report.v s 1000 2 = Done 0.499%Q /\
  Report.cut_index 1000 100 = 989 /\ Report.v s 1000 100 = Done 0.989%Q /\
  Slice.get s 999 = Done 999 /\ Report.v s 1000 (-1) = Done 0.999%Q.
Proof. vm_compute. repeat split; reflexivity. Qed.

(** C7: for every non-empty sample set, a lookup with a non-positive
    denominator gives the last element, the one at index L - 1, divided
    by 1000, whatever the denominator; the 100% line makes its lookup
    with -1. *)
Theorem lookup_longest (s : list Z) (d : Z) :
  s <> [] -> d <= 0 ->
  snd Report.longest <= 0 /\
  Slice.get s (Slice.len s - 1) = Done (last s 0) /\
  Report.v s (Slice.len s) d = Done (Qmake (last s 0) 1000) /\
  Report.v s (Slice.len s) (snd Report.longest) = Done (Qmake (last s 0) 1000).
Proof.
  intros Hs Hd. split; [cbn; lia|]. split.
  - rewrite get_in_range, sample_at_last; auto.
    destruct s; [congruence|]. unfold Slice.len. cbn [length]. lia.
  - split; apply v_sentinel; auto. cbn; lia.
Qed.

Lemma lookup_longest_witness :
  Report.v [3; 5; 8] 3 (-1) = Done (Qmake 8 1000).
Proof.
  apply (lookup_longest [3; 5; 8] (-1)); [discriminate|lia].
Defined.

(** C10: on an ascending sample set of L >= 2 elements (99 * L within
    the range of [int], as for every slice that fits in memory) the
    eight cut indexes lie in [0, L - 1], all nine lookups succeed, and
    their values do not decrease from 50% up to 100%. *)
Theorem lookups_monotone (s : list Z) :
  Sorted Z.le s -> 2 <= Slice.len s -> 99 * Slice.len s <= GoInt.max_int ->
  Forall (fun pd => 0 <= Report.cut_index (Slice.len s) (snd pd) <= Slice.len s - 1)
         Report.percentiles /\
  exists ms, Report.lookups s = map Done ms /\ Sorted Qle ms.
Proof.
  intros Hs HL Hmax.
  assert (Hne : s <> []) by (intros ->; cbn in HL; lia).
  assert (Hidx : forall d, In d [2; 3; 4; 5; 10; 20; 50; 100] ->
            Report.cut_index (Slice.len s) d = Slice.len s * (d - 1) / d - 1).
  { intros d Hd. apply cut_index_exact; [lia| |];
      cbn in Hd; repeat (destruct Hd as [<-|Hd]; [lia|]); contradiction. }
  assert (Hchain :
    0 <= Report.cut_index (Slice.len s) 2 <= Report.cut_index (Slice.len s) 3 /\
    Report.cut_index (Slice.len s) 3 <= Report.cut_index (Slice.len s) 4 /\
    Report.cut_index (Slice.len s) 4 <= Report.cut_index (Slice.len s) 5 /\
    Report.cut_index (Slice.len s) 5 <= Report.cut_index (Slice.len s) 10 /\
    Report.cut_index (Slice.len s) 10 <= Report.cut_index (Slice.len s) 20 /\
    Report.cut_index (Slice.len s) 20 <= Report.cut_index (Slice.len s) 50 /\
    Report.cut_index (Slice.len s) 50 <= Report.cut_index (Slice.len s) 100 /\
    Report.cut_index (Slice.len s) 100 <= Slice.len s - 2).
  { rewrite !Hidx by (cbn; auto 10).
    cbn [Z.sub Z.opp Z.add Z.pos_sub Pos.pred_double].
    Z.to_euclidean_division_equations; lia. }
  clear Hidx.
  split.
  - unfold Report.percentiles. repeat constructor; cbn [snd]; lia.
  - unfold Report.lookups, Report.percentiles, Report.longest.
    cbn [map app snd].
    rewrite !v_cut by lia.
    rewrite v_sentinel by (try assumption; lia).
    rewrite <- (sample_at_last s Hne).
    eexists [_; _; _; _; _; _; _; _; _]. split; [reflexivity|].
    repeat constructor; apply Qmake_le, sorted_sample_at; auto; lia.
Qed.

Lemma lookups_monotone_witness :
  exists ms, Report.lookups [1; 2; 2; 7] = map Done ms /\ Sorted Qle ms.
Proof.
  apply (lookups_monotone [1; 2; 2; 7]).
  - repeat constructor; lia.
  - cbn; lia.
  - rewrite max_int_value. cbn; lia.
Defined.

(** ** Quicksort *)

(** Equalities of lists up to the nesting of [++], and of their lengths. *)
Ltac list_eq :=
  repeat first [rewrite <- app_assoc | progress cbn [app]]; reflexivity.

Ltac len_eq :=
  repeat first [rewrite length_app | progress cbn [length]]; lia.

(** Permutations are settled by counting occurrences. *)
Ltac perm_counts :=
  apply (Permutation_count_occ Z.eq_dec); intros ?z;
  repeat match goal with
         | H : Permutation ?a ?b |- _ =>
             generalize (proj1 (Permutation_count_occ Z.eq_dec a b) H z); clear H
         end;
  repeat first [rewrite count_occ_app | progress cbn [count_occ app]];
  repeat match goal with
         | |- context [Z.eq_dec ?a ?b] => destruct (Z.eq_dec a b)
         end;
  intros; lia.

Section SortFacts.
Import Slice Sorting.

(** The equation of [sort], as the source reads. *)
Lemma sort_unfold values l r :
  sort values l r =
  if Z_ge_dec l r then Done values
  else match partition values l r with
       | Panic p => Panic p
       | Done (values1, i) =>
           values2 <- sort values1 l (i - 2) ;; sort values2 i r
       end.
Proof.
  rewrite sort_equation_1. destruct (Z_ge_dec l r) as [g|n]; simp sort.
  - reflexivity.
  - unfold inspect. generalize (@eq_refl _ (partition values l r)).
    generalize (partition values l r) at 2 4 5.
    intros [p|[values1 i]] e; simp sort; reflexivity.
Qed.

Lemma upd_middle pre x post y :
  upd (pre ++ x :: post) (length pre) y = pre ++ y :: post.
Proof. induction pre; cbn; congruence. Qed.

Lemma get_middle pre x post i :
  i = Z.of_nat (length pre) -> get (pre ++ x :: post) i = Done x.
Proof.
  intros ->. unfold get. destruct (Z.ltb_spec (Z.of_nat (length pre)) 0); [lia|].
  rewrite Nat2Z.id, nth_error_app2, Nat.sub_diag by lia. reflexivity.
Qed.

Lemma set_middle pre x post i y :
  i = Z.of_nat (length pre) -> set (pre ++ x :: post) i y = Done (pre ++ y :: post).
Proof.
  intros ->. unfold set, len. rewrite length_app. cbn [length].
  destruct (Z.leb_spec 0 (Z.of_nat (length pre))); [|lia].
  destruct (Z.ltb_spec (Z.of_nat (length pre)) (Z.of_nat (length pre + S (length post)))); [|lia].
  cbn [andb]. rewrite Nat2Z.id, upd_middle. reflexivity.
Qed.

Lemma get_at values pre x post i :
  values = pre ++ x :: post -> i = Z.of_nat (length pre) -> get values i = Done x.
Proof. intros ->. apply get_middle. Qed.

Lemma set_at values pre x post i y :
  values = pre ++ x :: post -> i = Z.of_nat (length pre) ->
  set values i y = Done (pre ++ y :: post).
Proof. intros ->. apply set_middle. Qed.

(** The loop of [sort] on a slice split as
    [pre ++ pivot :: lows ++ highs ++ rest ++ post], where [i] points
    behind [lows] and [j] behind [highs]. *)
Lemma partition_loop_spec pivot pre post : forall rest lows highs,
  Forall (fun x => x < pivot) lows -> Forall (fun x => pivot <= x) highs ->
  exists lows' highs',
    partition_loop pivot (length rest) (pre ++ pivot :: lows ++ highs ++ rest ++ post)
      (Z.of_nat (length pre) + 1 + Z.of_nat (length lows))
      (Z.of_nat (length pre) + 1 + Z.of_nat (length lows) + Z.of_nat (length highs))
    = Done (pre ++ pivot :: lows' ++ highs' ++ post,
            Z.of_nat (length pre) + 1 + Z.of_nat (length lows')) /\
    Permutation (lows ++ highs ++ rest) (lows' ++ highs') /\
    Forall (fun x => x < pivot) lows' /\ Forall (fun x => pivot <= x) highs'.
Proof.
  induction rest as [|x rest IH]; intros lows highs Hl Hh.
  - exists lows, highs. cbn [length partition_loop app].
    rewrite app_nil_r. repeat split; auto.
  - cbn [length partition_loop].
    rewrite (get_at _ (pre ++ pivot :: lows ++ highs) x (rest ++ post))
      by first [list_eq | len_eq].
    cbn [obind]. destruct (pivot >? x) eqn:E.
    + apply Z.gtb_lt in E.
      assert (Hl' : Forall (fun y => y < pivot) (lows ++ [x]))
        by (apply Forall_app; split; [assumption|repeat constructor; assumption]).
      destruct highs as [|h hs].
      * rewrite (get_at _ (pre ++ pivot :: lows) x (rest ++ post))
          by first [list_eq | len_eq].
        cbn [obind].
        rewrite (set_at _ (pre ++ pivot :: lows) x (rest ++ post))
          by first [list_eq | len_eq].
        cbn [obind].
        rewrite (set_at _ (pre ++ pivot :: lows) x (rest ++ post))
          by first [list_eq | len_eq].
        cbn [obind].
        destruct (IH (lows ++ [x]) [] Hl' Hh) as (lows' & highs' & Heq & Hperm & Hl2 & Hh2).
        exists lows', highs'. split; [|split; [perm_counts|auto]].
        rewrite <- Heq. f_equal; first [list_eq | len_eq].
      * inversion Hh as [|? ? Hh1 Hh2]; subst.
        assert (Hh' : Forall (fun y => pivot <= y) (hs ++ [h]))
          by (apply Forall_app; split; [assumption|repeat constructor; assumption]).
        rewrite (get_at _ (pre ++ pivot :: lows) h (hs ++ x :: rest ++ post))
          by first [list_eq | len_eq].
        cbn [obind].
        rewrite (set_at _ (pre ++ pivot :: lows) h (hs ++ x :: rest ++ post))
          by first [list_eq | len_eq].
        cbn [obind].
        rewrite (set_at _ (pre ++ pivot :: lows ++ x :: hs) x (rest ++ post))
          by first [list_eq | len_eq].
        cbn [obind].
        destruct (IH (lows ++ [x]) (hs ++ [h]) Hl' Hh') as (lows' & highs' & Heq & Hperm & Hl2 & Hh3).
        exists lows', highs'. split; [|split; [perm_counts|auto]].
        rewrite <- Heq. f_equal; first [list_eq | len_eq].
    + assert (Hx : pivot <= x) by (destruct (Z.gtb_spec pivot x); [discriminate|lia]).
      assert (Hh' : Forall (fun y => pivot <= y) (highs ++ [x]))
        by (apply Forall_app; split; [assumption|repeat constructor; assumption]).
      destruct (IH lows (highs ++ [x]) Hl Hh') as (lows' & highs' & Heq & Hperm & Hl2 & Hh2).
      exists lows', highs'. split; [|split; [perm_counts|auto]].
      rewrite <- Heq. f_equal; first [list_eq | len_eq].
Qed.

(** One pass of [sort] over the range [l..r] holding [pivot :: rest]:
    the pivot ends between the smaller and the other elements, and [i]
    is the index just behind the pivot. *)
Lemma partition_spec values pre pivot rest post l r :
  values = pre ++ pivot :: rest ++ post ->
  l = Z.of_nat (length pre) -> r = l + Z.of_nat (length rest) ->
  exists lows highs,
    partition values l r =
      Done (pre ++ lows ++ pivot :: highs ++ post, l + 1 + Z.of_nat (length lows)) /\
    Permutation rest (lows ++ highs) /\
    Forall (fun x => x < pivot) lows /\ Forall (fun x => pivot <= x) highs.
Proof.
  intros -> -> ->. unfold partition.
  rewrite (get_at _ pre pivot (rest ++ post)) by reflexivity. cbn [obind].
  destruct (partition_loop_spec pivot pre post rest [] [])
    as (lows & highs & Heq & Hperm & Hl & Hh); [constructor|constructor|].
  cbn [app length] in Heq. change (Z.of_nat 0) with 0 in Heq.
  rewrite !Z.add_0_r in Heq.
  replace (Z.to_nat (Z.of_nat (length pre) + Z.of_nat (length rest) - Z.of_nat (length pre)))
    with (length rest) by lia.
  rewrite Heq. cbn [obind]. clear Heq. cbn [app] in Hperm.
  destruct lows as [|y a _] using rev_ind.
  - rewrite (get_at _ pre pivot (highs ++ post)) by first [list_eq | len_eq].
    cbn [obind].
    rewrite (set_at _ pre pivot (highs ++ post)) by first [list_eq | len_eq].
    cbn [obind].
    rewrite (set_at _ pre pivot (highs ++ post)) by first [list_eq | len_eq].
    cbn [obind].
    exists [], highs. repeat split; auto.
  - rewrite (get_at _ (pre ++ pivot :: a) y (highs ++ post)) by first [list_eq | len_eq].
    cbn [obind].
    rewrite (set_at _ pre pivot ((a ++ [y]) ++ highs ++ post)) by first [list_eq | len_eq].
    cbn [obind].
    rewrite (set_at _ (pre ++ y :: a) y (highs ++ post)) by first [list_eq | len_eq].
    cbn [obind].
    apply Forall_app in Hl. destruct Hl as [Ha Hy]. inversion Hy; subst.
    exists (y :: a), highs. split; [|split; [perm_counts|auto]].
    f_equal. f_equal; first [list_eq | len_eq].
Qed.

Lemma StronglySorted_middle lows pivot highs :
  StronglySorted Z.le lows -> StronglySorted Z.le highs ->
  Forall (fun x => x < pivot) lows -> Forall (fun x => pivot <= x) highs ->
  StronglySorted Z.le (lows ++ pivot :: highs).
Proof.
  intros Hl Hh Hlt Hge. induction Hl as [|x lows Hl IH Hx]; cbn [app].
  - constructor; assumption.
  - inversion Hlt; subst. constructor; [apply IH; assumption|].
    apply Forall_app. split; [assumption|].
    constructor; [lia|]. eapply Forall_impl; [|exact Hge]. cbn. intros; lia.
Qed.

(** [sort] on the range [l..r] holding [mid] sorts that range and leaves
    the rest of the slice alone. *)
Lemma sort_segment n : forall values pre mid post l r,
  (length mid <= n)%nat ->
  values = pre ++ mid ++ post ->
  l = Z.of_nat (length pre) -> r = l + Z.of_nat (length mid) - 1 ->
  exists mid',
    sort values l r = Done (pre ++ mid' ++ post) /\
    Permutation mid mid' /\ StronglySorted Z.le mid'.
Proof.
  induction n as [|n IH]; intros values pre mid post l r Hn -> -> ->;
    rewrite sort_unfold.
  - destruct mid; [|cbn in Hn; lia].
    destruct (Z_ge_dec _ _) as [_|Hlt]; [|cbn [length] in Hlt; lia].
    exists []. repeat split; auto. constructor.
  - destruct (Z_ge_dec _ _) as [Hge|Hlt].
    + exists mid. repeat split; auto.
      destruct mid as [|x [|y mid]]; [constructor|repeat constructor|cbn [length] in Hge; lia].
    + destruct mid as [|pivot rest]; [cbn [length] in Hlt; lia|].
      destruct (partition_spec (pre ++ (pivot :: rest) ++ post) pre pivot rest post
                  (Z.of_nat (length pre))
                  (Z.of_nat (length pre) + Z.of_nat (length (pivot :: rest)) - 1))
        as (lows & highs & Heq & Hperm & Hl & Hh); [list_eq|reflexivity|len_eq|].
      rewrite Heq. clear Heq.
      pose proof (Permutation_length Hperm) as Hlen. rewrite length_app in Hlen.
      cbn [length] in Hn.
      destruct (IH (pre ++ lows ++ pivot :: highs ++ post) pre lows (pivot :: highs ++ post)
                  (Z.of_nat (length pre))
                  (Z.of_nat (length pre) + 1 + Z.of_nat (length lows) - 2))
        as (lows' & Heq1 & Hperm1 & Hs1); [lia|reflexivity|reflexivity|lia|].
      rewrite Heq1. cbn [obind]. clear Heq1.
      pose proof (Permutation_length Hperm1) as Hlen1.
      destruct (IH (pre ++ lows' ++ pivot :: highs ++ post) (pre ++ lows' ++ [pivot]) highs post
                  (Z.of_nat (length pre) + 1 + Z.of_nat (length lows))
                  (Z.of_nat (length pre) + Z.of_nat (length (pivot :: rest)) - 1))
        as (highs' & Heq2 & Hperm2 & Hs2); [lia|list_eq|len_eq|len_eq|].
      rewrite Heq2. clear Heq2.
      exists (lows' ++ pivot :: highs'). split; [f_equal; list_eq|]. split.
      * perm_counts.
      * apply StronglySorted_middle; auto.
        -- eapply Permutation_Forall; eassumption.
        -- eapply Permutation_Forall; eassumption.
Qed.

Lemma split_range (values : list Z) l r :
  0 <= l <= r + 1 -> r < len values ->
  exists pre mid post,
    values = pre ++ mid ++ post /\
    l = Z.of_nat (length pre) /\ r = l + Z.of_nat (length mid) - 1.
Proof.
  unfold len. intros Hl Hr.
  exists (firstn (Z.to_nat l) values),
         (firstn (Z.to_nat (r - l + 1)) (skipn (Z.to_nat l) values)),
         (skipn (Z.to_nat (r - l + 1)) (skipn (Z.to_nat l) values)).
  rewrite !firstn_skipn, !length_firstn, length_skipn. repeat split; lia.
Qed.

Lemma sorted_permutation_eq (a : list Z) : forall b,
  StronglySorted Z.le a -> StronglySorted Z.le b -> Permutation a b -> a = b.
Proof.
  induction a as [|x a IH]; intros b Ha Hb Hp.
  - apply Permutation_nil in Hp. congruence.
  - destruct b as [|y b]; [apply Permutation_sym, Permutation_nil in Hp; discriminate|].
    inversion Ha as [|? ? Ha' Hx]; inversion Hb as [|? ? Hb' Hy]; subst.
    assert (x = y).
    { assert (Hxin : In x (y :: b)) by (eapply Permutation_in; [exact Hp|left; reflexivity]).
      assert (Hyin : In y (x :: a))
        by (eapply Permutation_in; [apply Permutation_sym; exact Hp|left; reflexivity]).
      rewrite Forall_forall in Hx, Hy.
      destruct Hxin as [|Hxin]; [congruence|]. destruct Hyin as [|Hyin]; [congruence|].
      apply Hy in Hxin. apply Hx in Hyin. lia. }
    subst y. f_equal. apply IH; auto. eapply Permutation_cons_inv; exact Hp.
Qed.

End SortFacts.

(** C8: [sort(values, 0, len(values)-1)] returns for every slice, the
    result is in ascending order and a permutation of the input, and an
    input already in ascending order comes back unchanged. *)
Theorem sort_sorts (values : list Z) :
  exists sorted,
    Sorting.sort values 0 (Slice.len values - 1) = Done sorted /\
    Sorted Z.le sorted /\
    Permutation values sorted /\
    (Sorted Z.le values -> sorted = values).
Proof.
  destruct (sort_segment (length values) values [] values [] 0 (Slice.len values - 1))
    as (sorted & Heq & Hperm & Hsorted).
  - lia.
  - rewrite app_nil_r. reflexivity.
  - reflexivity.
  - unfold Slice.len. lia.
  - cbn [app] in Heq. rewrite app_nil_r in Heq.
    exists sorted. repeat split; auto.
    + apply StronglySorted_Sorted. exact Hsorted.
    + intros Hv. symmetry. apply sorted_permutation_eq; auto.
      apply Sorted_StronglySorted; [exact Z.le_trans|exact Hv].
Qed.

(** C9: for bounds inside the slice [sort] returns (it is a total
    function and no index leaves the slice); when l < r the pass over
    the range puts the pivot at index i - 1 inside it, and the two
    recursive calls work on [l..i-2] and [i..r], both strictly shorter
    than [l..r]. *)
Theorem sort_total (values : list Z) (l r : Z) :
  0 <= l -> r < Slice.len values ->
  (exists values', Sorting.sort values l r = Done values' /\
                   length values' = length values) /\
  (l < r ->
   exists values1 i,
     Sorting.partition values l r = Done (values1, i) /\
     l <= i - 1 <= r /\
     (i - 2) - l + 1 < r - l + 1 /\
     r - i + 1 < r - l + 1 /\
     Sorting.sort values l r =
       (values2 <- Sorting.sort values1 l (i - 2) ;; Sorting.sort values2 i r)).
Proof.
  intros Hl Hr. split.
  - destruct (Z_ge_dec l r) as [Hge|Hlt].
    + exists values. rewrite sort_unfold. destruct (Z_ge_dec l r); [auto|contradiction].
    + destruct (split_range values l r) as (pre & mid & post & Hv & Hpre & Hmid); [lia|lia|].
      destruct (sort_segment (length mid) values pre mid post l r)
        as (mid' & Heq & Hperm & _); auto.
      exists (pre ++ mid' ++ post). split; [exact Heq|].
      subst values. rewrite !length_app. apply Permutation_length in Hperm. lia.
  - intros Hlt.
    destruct (split_range values l r) as (pre & mid & post & Hv & Hpre & Hmid); [lia|lia|].
    destruct mid as [|pivot rest]; [cbn [length] in Hmid; lia|].
    destruct (partition_spec values pre pivot rest post l r)
      as (lows & highs & Heq & Hperm & _); [subst; list_eq|assumption|cbn [length] in Hmid; lia|].
    apply Permutation_length in Hperm. rewrite length_app in Hperm. cbn [length] in Hmid.
    eexists _, _. split; [exact Heq|].
    repeat split; try lia.
    rewrite sort_unfold, Heq. destruct (Z_ge_dec l r); [lia|reflexivity].
Qed.

Lemma sort_total_witness :
  exists values', Sorting.sort [5; 2; 9; 1; 5] 1 3 = Done values' /\
                  length values' = 5%nat.
Proof.
  apply (sort_total [5; 2; 9; 1; 5] 1 3); cbn; lia.
Defined.

(** ** The case executor *)

Section ThriftFacts.
Import Thrift.

Variable proto : Protocol.

Lemma write_arg_supported i a tr :
  supported a = true ->
  exists p q, builds p /\ builds q /\
    field_calls i [a] = [p; q] /\
    write_arg i a proto tr = (tr ++ [p; q], proto (tr ++ [p]) q).
Proof.
  intros Ha.
  assert (Hrun : forall p q,
            overwritten (invoke p) (invoke q) proto tr = (tr ++ [p; q], proto (tr ++ [p]) q)).
  { intros p q. unfold overwritten, invoke. cbn [fst]. rewrite <- app_assoc. reflexivity. }
  destruct a as [v|v|v|v|g]; try discriminate Ha; cbn [field_calls app write_arg].
  - exists (WriteFieldBegin "i16" T_I16 (GoInt.int16 (i + 1))), (WriteI16 v).
    unfold builds. repeat split; auto; discriminate.
  - exists (WriteFieldBegin "i32" T_I32 (GoInt.int16 (i + 1))), (WriteI32 v).
    unfold builds. repeat split; auto; discriminate.
  - exists (WriteFieldBegin "i64" T_I64 (GoInt.int16 (i + 1))), (WriteI64 v).
    unfold builds. repeat split; auto; discriminate.
  - exists (WriteFieldBegin "string" T_STRING (GoInt.int16 (i + 1))), (WriteString v).
    unfold builds. repeat split; auto; discriminate.
Qed.

Lemma write_arg_run i a tr :
  supported a = true ->
  exists n t q,
    (forall n' t' i', q <> WriteFieldBegin n' t' i') /\
    field_calls i [a] = [WriteFieldBegin n t (GoInt.int16 (i + 1)); q] /\
    write_arg i a proto tr =
      (tr ++ [WriteFieldBegin n t (GoInt.int16 (i + 1)); q],
       proto (tr ++ [WriteFieldBegin n t (GoInt.int16 (i + 1))]) q).
Proof.
  intros Ha.
  assert (Hrun : forall p q,
            overwritten (invoke p) (invoke q) proto tr = (tr ++ [p; q], proto (tr ++ [p]) q)).
  { intros p q. unfold overwritten, invoke. cbn [fst]. rewrite <- app_assoc. reflexivity. }
  destruct a as [v|v|v|v|g]; try discriminate Ha; cbn [field_calls app write_arg];
    eexists _, _, _; (split; [|split; [reflexivity|apply Hrun]]); discriminate.
Qed.

Lemma field_calls_cons i a rest :
  field_calls i (a :: rest) = field_calls i [a] ++ field_calls (i + 1) rest.
Proof. cbn [field_calls]. rewrite app_nil_r. reflexivity. Qed.

Lemma field_calls_before_stop args : forall i,
  Forall (fun p => Observed.before_stop p = true) (field_calls i args).
Proof.
  induction args as [|a rest IH]; intros i; [constructor|].
  rewrite field_calls_cons. apply Forall_app. split; [|apply IH].
  destruct a; cbn; repeat constructor.
Qed.

(** The argument loop in front of an argument of unsupported kind: it
    makes the field writes of the arguments before, up to the first
    value write that reports an error, and fails in any case. *)
Lemma write_args_reach a post : forall pre i tr,
  Forall (fun b => supported b = true) pre -> supported a = false ->
  exists added more,
    fst (write_args i (pre ++ a :: post) proto tr) = tr ++ added /\
    field_calls i pre = added ++ more /\
    snd (write_args i (pre ++ a :: post) proto tr) <> None /\
    ((forall h p m, field_calls i pre = h ++ p :: m ->
        (forall n t k, p <> WriteFieldBegin n t k) -> proto (tr ++ h) p = None) ->
     snd (write_args i (pre ++ a :: post) proto tr) = Some "unsupport type" /\
     more = []).
Proof.
  induction pre as [|b pre IH]; intros i tr Hpre Ha.
  - exists [], []. destruct a; try discriminate Ha.
    cbn. rewrite app_nil_r. repeat split; auto. discriminate.
  - inversion Hpre as [|? ? Hb Hpre']; subst.
    destruct (write_arg_run i b tr Hb) as (n & t & q & Hq & Hcalls & Hrun).
    cbn [app write_args]. unfold andthen. rewrite Hrun.
    rewrite field_calls_cons, Hcalls.
    destruct (proto (tr ++ [WriteFieldBegin n t (GoInt.int16 (i + 1))]) q) as [e|] eqn:E.
    + exists [WriteFieldBegin n t (GoInt.int16 (i + 1)); q], (field_calls (i + 1) pre).
      cbn [fst snd]. split; [reflexivity|]. split; [reflexivity|]. split; [discriminate|].
      intros Hok. exfalso.
      rewrite (Hok [WriteFieldBegin n t (GoInt.int16 (i + 1))] q (field_calls (i + 1) pre))
        in E; [discriminate E|reflexivity|exact Hq].
    + destruct (IH (i + 1) (tr ++ [WriteFieldBegin n t (GoInt.int16 (i + 1)); q]) Hpre' Ha)
        as (added & more & Hfst & Hsplit & Hsnd & Hok).
      exists ([WriteFieldBegin n t (GoInt.int16 (i + 1)); q] ++ added), more.
      rewrite Hfst, <- app_assoc.
      split; [reflexivity|]. split; [rewrite Hsplit, <- app_assoc; reflexivity|].
      split; [assumption|].
      intros Hall. apply Hok. intros h p m Hh Hp.
      rewrite <- app_assoc. apply (Hall _ p m); [|exact Hp].
      rewrite Hh, <- app_assoc. reflexivity.
Qed.

End ThriftFacts.

(** C5 (as amended): when the first argument of an unsupported kind
    comes after arguments of supported kinds only, executing the case
    fails.  The kind is looked at inside the argument loop, so the
    calls made are [WriteMessageBegin] and then, in order and as far as
    none of them ends the call, [WriteStructBegin] and the field writes
    of the arguments before: a non-empty prefix of that list, hence no
    field stop, no struct or message end, no [Flush] and no read.  When
    none of these calls reports an error that is looked at (an error of
    [WriteFieldBegin] is not) all of them are made and the error is
    "unsupport type", whatever the protocol would answer to later
    calls. *)
Theorem unsupported_argument (proto : Thrift.Protocol) (name : string)
  (pre : list Thrift.arg) (a : Thrift.arg) (post : list Thrift.arg) :
  Forall (fun b => Thrift.supported b = true) pre -> Thrift.supported a = false ->
  snd (Thrift.call name (pre ++ a :: post) proto []) <> None /\
  (exists rest more,
     fst (Thrift.call name (pre ++ a :: post) proto []) =
       Thrift.WriteMessageBegin name Thrift.T_CALL 0 :: rest /\
     Thrift.WriteMessageBegin name Thrift.T_CALL 0
       :: Thrift.WriteStructBegin "whatever" :: Thrift.field_calls 0 pre =
     fst (Thrift.call name (pre ++ a :: post) proto []) ++ more) /\
  Forall (fun p => Observed.before_stop p = true)
         (fst (Thrift.call name (pre ++ a :: post) proto [])) /\
  ((forall h p m,
      Thrift.WriteMessageBegin name Thrift.T_CALL 0
        :: Thrift.WriteStructBegin "whatever" :: Thrift.field_calls 0 pre = h ++ p :: m ->
      (forall n t k, p <> Thrift.WriteFieldBegin n t k) ->
      proto h p = None) ->
   Thrift.call name (pre ++ a :: post) proto [] =
     (Thrift.WriteMessageBegin name Thrift.T_CALL 0
        :: Thrift.WriteStructBegin "whatever" :: Thrift.field_calls 0 pre,
      Some "unsupport type")).
Proof.
  intros Hpre Ha.
  destruct (write_args_reach proto a post pre 0
              [Thrift.WriteMessageBegin name Thrift.T_CALL 0;
               Thrift.WriteStructBegin "whatever"] Hpre Ha)
    as (added & more & Hfst & Hsplit & Hsnd & Hok).
  pose proof (field_calls_before_stop pre 0) as Hfields.
  rewrite Hsplit in Hfields. apply Forall_app in Hfields. destruct Hfields as [Hadded _].
  unfold Thrift.call, Thrift.writeMessageBody, Thrift.andthen, Thrift.invoke.
  cbn [app].
  destruct (proto [] _) as [e1|] eqn:E1; cbn [fst snd].
  { split; [discriminate|]. split; [eexists [], _; split; reflexivity|].
    split; [repeat constructor|].
    intros Hall. rewrite (Hall [] _ _ eq_refl) in E1; [discriminate E1|discriminate]. }
  destruct (proto [_] _) as [e2|] eqn:E2; cbn [fst snd].
  { split; [discriminate|]. split; [eexists [_], _; split; reflexivity|].
    split; [repeat constructor|].
    intros Hall. rewrite (Hall [_] _ _ eq_refl) in E2; [discriminate E2|discriminate]. }
  destruct (Thrift.write_args 0 (pre ++ a :: post) proto _) as [tr [e3|]] eqn:E3;
    cbn [fst snd] in *; [|exfalso; apply Hsnd; reflexivity].
  subst tr. split; [discriminate|]. split.
  - exists (Thrift.WriteStructBegin "whatever" :: added), more.
    split; [reflexivity|]. rewrite Hsplit. reflexivity.
  - split; [repeat constructor; exact Hadded|].
    intros Hall. destruct Hok as [He Hmore].
    + intros h p m Hh Hp. apply (Hall _ p m); [|exact Hp]. rewrite Hh. reflexivity.
    + subst more. rewrite app_nil_r in Hsplit. inversion He; subst. reflexivity.
Qed.

Lemma unsupported_argument_witness :
  Thrift.call "add" [Thrift.I32 7; Thrift.Other "bool"]
    (fun _ p => match p with
                | Thrift.WriteFieldBegin _ _ _ => Some "dropped"
                | Thrift.Flush => Some "broken pipe"
                | _ => None
                end) [] =
    ([Thrift.WriteMessageBegin "add" Thrift.T_CALL 0;
      Thrift.WriteStructBegin "whatever";
      Thrift.WriteFieldBegin "i32" Thrift.T_I32 1;
      Thrift.WriteI32 7],
     Some "unsupport type").
Proof.
  apply (unsupported_argument
           (fun _ p => match p with
                       | Thrift.WriteFieldBegin _ _ _ => Some "dropped"
                       | Thrift.Flush => Some "broken pipe"
                       | _ => None
                       end)
           "add" [Thrift.I32 7] (Thrift.Other "bool") []).
  - repeat constructor.
  - reflexivity.
  - intros h p m Hh Hp. cbn in Hh.
    destruct p; try reflexivity.
    + exfalso. eapply Hp. reflexivity.
    + exfalso.
      destruct h as [|x1 [|x2 [|x3 [|x4 [|x5 h]]]]]; cbn in Hh; discriminate Hh.
Defined.

(** C5 as stated fails for [call("ping", true)] over a protocol that
    reports no error: the case fails with "unsupport type" after two
    write primitives have been called. *)
Lemma unsupported_argument_after_writes :
  Thrift.call "ping" [Thrift.Other "bool"] (fun _ _ => None) [] =
    ([Thrift.WriteMessageBegin "ping" Thrift.T_CALL 0;
      Thrift.WriteStructBegin "whatever"],
     Some "unsupport type") /\
  ~ Forall (fun p => Thrift.is_write p = false)
      (fst (Thrift.call "ping" [Thrift.Other "bool"] (fun _ _ => None) [])).
Proof.
  split; [reflexivity|].
  intros H. inversion H as [|? ? Hw _]. discriminate Hw.
Qed.

(** ** Whole runs *)

Section RunFacts.
Import Thrift Worker Report Dispatcher.

Lemma interleaving_empty ws ch :
  Forall (fun w => w = []) ws -> interleaving ws ch -> ch = [].
Proof.
  intros Hws H. destruct H as [|before x w after s _]; [reflexivity|].
  apply Forall_app in Hws. destruct Hws as [_ Hws].
  inversion Hws as [|? ? Hx _]. discriminate Hx.
Qed.

Lemma interleaving_single ws ch :
  interleaving ws ch -> forall w, ws = [w] -> ch = w.
Proof.
  induction 1 as [ws Hws|before x w' after s _ IH]; intros w Heq.
  - subst ws. inversion Hws; subst. reflexivity.
  - destruct before as [|b before]; cbn [app] in Heq.
    + inversion Heq; subst. f_equal. apply IH. reflexivity.
    + inversion Heq as [[Hb Hnil]]. destruct before; discriminate Hnil.
Qed.

Lemma process_first_call_fails fn c count r :
  snd (fn (proto c) []) <> None -> process fn c count = Done r -> samples r = [].
Proof.
  unfold process. intros Hfail H. destruct (open_error c); [discriminate|].
  inversion H; subst. destruct (Z.to_nat count); cbn [process_loop]; [reflexivity|].
  destruct (fn (proto c) []) as [tr [e|]]; [reflexivity|].
  exfalso. apply Hfail. reflexivity.
Qed.

Lemma process_single fn c :
  open_error c = None -> snd (fn (proto c) []) = None ->
  process fn c 1 =
    Done {| calls := 1; samples := [Z.quot (elapsed c 0) 1000]; printed := None |}.
Proof.
  unfold process. intros -> Hok. change (Z.to_nat 1) with 1%nat. cbn [process_loop].
  destruct (fn (proto c) []) as [tr [e|]]; [discriminate Hok|reflexivity].
Qed.

Lemma collect_empty addr C R dnano :
  collect addr C R dnano [] =
    ([ ServerAddress addr;
       Blank;
       ConcurrencyLevel C;
       TimeTaken (inject_Z dnano / inject_Z (10 ^ 9));
       CompleteRequests 0;
       FailedRequests (GoInt.sub R 0);
       RequestPerSecond (fdiv (inject_Z 0) (inject_Z dnano / inject_Z (10 ^ 9)));
       Blank;
       Heading ],
     Some (IndexOutOfRange (-1) 0)).
Proof. reflexivity. Qed.

Lemma collect_single addr dnano d :
  collect addr 1 1 dnano [d] =
    ([ ServerAddress addr;
       Blank;
       ConcurrencyLevel 1;
       TimeTaken (inject_Z dnano / inject_Z (10 ^ 9));
       CompleteRequests 1;
       FailedRequests 0;
       RequestPerSecond (fdiv (inject_Z 1) (inject_Z dnano / inject_Z (10 ^ 9)));
       Blank;
       Heading ],
     Some (IndexOutOfRange (-1) 1)).
Proof. reflexivity. Qed.

End RunFacts.

(** C3 (what the code does): when the first call of every worker
    fails, nothing reaches the collector, so L = 0; [collect] sends the
    lines up to the heading of the percentile table, with R as the
    number of failed requests, and then stops on an index-out-of-range
    panic in the lookup for 50%, which reads index -1 of the empty
    slice.  None of the nine percentile lines is sent. *)
Theorem all_first_calls_fail (fn : Thrift.Case) (conns : Z -> Worker.connection)
  (addr : string) (R C dnano : Z) (ch : list Z) :
  0 < R <= GoInt.max_int -> 0 < C <= GoInt.max_int ->
  (forall gid, Worker.open_error (conns gid) = None) ->
  (forall gid, snd (fn (Worker.proto (conns gid)) []) <> None) ->
  Dispatcher.received (Dispatcher.launch fn conns R C) ch ->
  ch = [] /\
  Report.v [] 0 2 = Panic (IndexOutOfRange (-1) 0) /\
  Report.v [] 0 (-1) = Panic (IndexOutOfRange (-1) 0) /\
  Report.collect addr C R dnano ch =
    ([ Report.ServerAddress addr;
       Report.Blank;
       Report.ConcurrencyLevel C;
       Report.TimeTaken (inject_Z dnano / inject_Z (10 ^ 9));
       Report.CompleteRequests 0;
       Report.FailedRequests R;
       Report.RequestPerSecond
         (Report.fdiv (inject_Z 0) (inject_Z dnano / inject_Z (10 ^ 9)));
       Report.Blank;
       Report.Heading ],
     Some (IndexOutOfRange (-1) 0)).
Proof.
  intros HR HC Hopen Hfail (rs & Hrs & Hch).
  assert (ch = []) as ->.
  { apply (interleaving_empty (map Worker.samples rs)); [|exact Hch].
    apply Forall_forall. intros w Hw. apply in_map_iff in Hw.
    destruct Hw as (r & <- & Hr).
    assert (Hin : In (Done r) (Dispatcher.launch fn conns R C))
      by (rewrite <- Hrs; apply in_map; exact Hr).
    unfold Dispatcher.launch in Hin. apply in_map_iff in Hin.
    destruct Hin as ([gid count] & Hp & _).
    eapply process_first_call_fails; [apply Hfail|exact Hp]. }
  split; [reflexivity|]. split; [reflexivity|]. split; [reflexivity|].
  rewrite collect_empty. unfold GoInt.sub. rewrite Z.sub_0_r, wrap_id; [reflexivity|].
  unfold GoInt.in_int. rewrite min_int_value. lia.
Qed.

Lemma all_first_calls_fail_witness :
  Report.collect ":6000" 2 3 1000 [] =
    ([ Report.ServerAddress ":6000";
       Report.Blank;
       Report.ConcurrencyLevel 2;
       Report.TimeTaken (inject_Z 1000 / inject_Z (10 ^ 9));
       Report.CompleteRequests 0;
       Report.FailedRequests 3;
       Report.RequestPerSecond
         (Report.fdiv (inject_Z 0) (inject_Z 1000 / inject_Z (10 ^ 9)));
       Report.Blank;
       Report.Heading ],
     Some (IndexOutOfRange (-1) 0)).
Proof.
  pose (c := {| Worker.proto := fun _ _ => Some "EOF";
                Worker.open_error := None;
                Worker.elapsed := fun _ => 0 |}).
  apply (all_first_calls_fail Dispatcher.ping (fun _ => c) ":6000" 3 2 1000 []).
  - rewrite max_int_value. lia.
  - rewrite max_int_value. lia.
  - reflexivity.
  - intros gid. cbn. discriminate.
  - exists [ {| Worker.calls := 1; Worker.samples := []; Worker.printed := Some "EOF" |};
             {| Worker.calls := 1; Worker.samples := []; Worker.printed := Some "EOF" |} ].
    split; [reflexivity|]. apply Dispatcher.interleaving_done. repeat constructor.
Defined.

(** C4 (what the code does): with R = 1 and C = 1 and a successful
    call, the case is called once and one sample is collected; the
    lookup for 100% gives that sample, but each of the eight lookups for
    50% to 99% reads index -1, so [collect] sends the lines up to the
    heading of the percentile table and stops on an index-out-of-range
    panic. *)
Theorem single_request (fn : Thrift.Case) (conns : Z -> Worker.connection)
  (addr : string) (dnano : Z) (ch : list Z) :
  Worker.open_error (conns 0) = None ->
  snd (fn (Worker.proto (conns 0)) []) = None ->
  Dispatcher.received (Dispatcher.launch fn conns 1 1) ch ->
  let d := Z.quot (Worker.elapsed (conns 0) 0) 1000 in
  Dispatcher.launch fn conns 1 1 =
    [Done {| Worker.calls := 1; Worker.samples := [d]; Worker.printed := None |}] /\
  ch = [d] /\
  Report.v [d] 1 (-1) = Done (Qmake d 1000) /\
  Forall (fun pd => Report.cut_index 1 (snd pd) = -1 /\
                    Report.v [d] 1 (snd pd) = Panic (IndexOutOfRange (-1) 1))
         Report.percentiles /\
  Report.collect addr 1 1 dnano ch =
    ([ Report.ServerAddress addr;
       Report.Blank;
       Report.ConcurrencyLevel 1;
       Report.TimeTaken (inject_Z dnano / inject_Z (10 ^ 9));
       Report.CompleteRequests 1;
       Report.FailedRequests 0;
       Report.RequestPerSecond
         (Report.fdiv (inject_Z 1) (inject_Z dnano / inject_Z (10 ^ 9)));
       Report.Blank;
       Report.Heading ],
     Some (IndexOutOfRange (-1) 1)).
Proof.
  intros Hopen Hok (rs & Hrs & Hch) d.
  assert (Hlaunch : Dispatcher.launch fn conns 1 1 =
            [Done {| Worker.calls := 1; Worker.samples := [d]; Worker.printed := None |}]).
  { unfold Dispatcher.launch. change (Dispatcher.spawn 1 1) with [(0, 1)].
    cbn [map]. rewrite process_single by assumption. reflexivity. }
  assert (ch = [d]) as ->.
  { rewrite Hlaunch in Hrs. destruct rs as [|r [|r' rs]]; try discriminate Hrs.
    inversion Hrs; subst r. apply (interleaving_single _ _ Hch). reflexivity. }
  split; [exact Hlaunch|]. split; [reflexivity|]. split; [reflexivity|].
  split; [repeat constructor|]. apply collect_single.
Qed.

Lemma single_request_witness :
  Report.collect ":6000" 1 1 300000 [250] =
    ([ Report.ServerAddress ":6000";
       Report.Blank;
       Report.ConcurrencyLevel 1;
       Report.TimeTaken (inject_Z 300000 / inject_Z (10 ^ 9));
       Report.CompleteRequests 1;
       Report.FailedRequests 0;
       Report.RequestPerSecond
         (Report.fdiv (inject_Z 1) (inject_Z 300000 / inject_Z (10 ^ 9)));
       Report.Blank;
       Report.Heading ],
     Some (IndexOutOfRange (-1) 1)).
Proof.
  pose (c := {| Worker.proto := fun _ _ => None;
                Worker.open_error := None;
                Worker.elapsed := fun _ => 250999 |}).
  apply (single_request Dispatcher.ping (fun _ => c) ":6000" 300000 [250]).
  - reflexivity.
  - reflexivity.
  - exists [ {| Worker.calls := 1; Worker.samples := [250]; Worker.printed := None |} ].
    split; [reflexivity|].
    apply (Dispatcher.interleaving_next [] 250 [] [] []).
    apply Dispatcher.interleaving_done. repeat constructor.
Defined.

(** * Further properties *)

(** ** The case executor: successful round trips *)

Section CaseFacts.
Import Thrift Observed.

(** A protocol on which only [WriteFieldBegin] may report an error. *)
Definition lenient (proto : Protocol) : Prop :=
  forall h p, (forall n t i, p <> WriteFieldBegin n t i) -> proto h p = None.

Variable proto : Protocol.

Lemma write_args_ok args : forall i tr,
  lenient proto -> Forall (fun a => supported a = true) args ->
  write_args i args proto tr = (tr ++ field_calls i args, None).
Proof.
  induction args as [|a rest IH]; intros i tr Hp Hargs.
  - cbn. rewrite app_nil_r. reflexivity.
  - inversion Hargs as [|? ? Ha Hrest]; subst.
    destruct (write_arg_run proto i a tr Ha) as (n & t & q & Hq & Hcalls & Hrun).
    cbn [write_args]. unfold andthen. rewrite Hrun, (Hp _ q Hq), IH by assumption.
    rewrite field_calls_cons, Hcalls, <- app_assoc. reflexivity.
Qed.

Lemma call_ok name args tr :
  lenient proto -> Forall (fun a => supported a = true) args ->
  call name args proto tr =
    (tr ++ WriteMessageBegin name T_CALL 0 :: WriteStructBegin "whatever"
        :: field_calls 0 args
        ++ [WriteFieldStop; WriteStructEnd; WriteMessageEnd; Flush;
            ReadMessageBegin; Skip T_STRUCT; ReadMessageEnd],
     None).
Proof.
  intros Hp Hargs.
  unfold call, writeMessageBody, andthen, invoke.
  rewrite (Hp tr) by discriminate. rewrite (Hp (tr ++ _)) by discriminate.
  rewrite write_args_ok by assumption.
  repeat (rewrite (Hp (_ ++ _)) by discriminate).
  f_equal. list_eq.
Qed.



End CaseFacts.


(** X1: over a protocol on which nothing but [WriteFieldBegin] reports
    an error, a case with arguments of supported kinds succeeds, and the
    calls it makes are, in order: message begin, struct begin, a field
    begin and a value for each argument, field stop, struct end, message
    end, flush, and the three reads.  An error of [WriteFieldBegin] does
    not end the call. *)
Theorem call_round_trip (proto : Thrift.Protocol) (name : string)
  (args : list Thrift.arg) (tr : Thrift.trace) :
  lenient proto -> Forall (fun a => Thrift.supported a = true) args ->
  Thrift.call name args proto tr =
    (tr ++ Thrift.WriteMessageBegin name Thrift.T_CALL 0
        :: Thrift.WriteStructBegin "whatever"
        :: Thrift.field_calls 0 args
        ++ [Thrift.WriteFieldStop; Thrift.WriteStructEnd; Thrift.WriteMessageEnd;
            Thrift.Flush; Thrift.ReadMessageBegin; Thrift.Skip Thrift.T_STRUCT;
            Thrift.ReadMessageEnd],
     None).
Proof. intros Hp Hargs. apply call_ok; assumption. Qed.

Lemma call_round_trip_witness :
  Thrift.call "put" [Thrift.Str "k"; Thrift.I64 9]
    (fun _ p => match p with
                | Thrift.WriteFieldBegin _ _ _ => Some "dropped"
                | _ => None
                end) [] =
    ([ Thrift.WriteMessageBegin "put" Thrift.T_CALL 0;
       Thrift.WriteStructBegin "whatever";
       Thrift.WriteFieldBegin "string" Thrift.T_STRING 1; Thrift.WriteString "k";
       Thrift.WriteFieldBegin "i64" Thrift.T_I64 2; Thrift.WriteI64 9;
       Thrift.WriteFieldStop; Thrift.WriteStructEnd; Thrift.WriteMessageEnd;
       Thrift.Flush; Thrift.ReadMessageBegin; Thrift.Skip Thrift.T_STRUCT;
       Thrift.ReadMessageEnd ],
     None).
Proof.
  apply (call_round_trip _ "put" [Thrift.Str "k"; Thrift.I64 9] []).
  - intros h p Hp. destruct p; try reflexivity. exfalso. eapply Hp. reflexivity.
  - repeat constructor.
Defined.



(** ** The case executor: errors *)

Section CaseErrors.
Import Thrift.

(** Where an error [e] that ends a case can come from, given all the
    calls [full] made on the connection: the type switch (when an
    argument of unsupported kind is there, [U]), or the last call made. *)
Definition origin (U : Prop) (proto : Protocol) (e : error) (full : trace) : Prop :=
  (e = "unsupport type" /\ U) \/
  (exists h p, full = h ++ [p] /\ proto h p = Some e).

(** A case that only adds calls to the connection and returns no error
    other than these. *)
Definition stops_at_error (U : Prop) (c : Case) : Prop :=
  forall proto tr,
  exists added,
    fst (c proto tr) = tr ++ added /\
    forall e, snd (c proto tr) = Some e -> origin U proto e (tr ++ added).

Lemma stops_invoke U p : stops_at_error U (invoke p).
Proof.
  intros proto tr. exists [p]. split; [reflexivity|].
  intros e He. right. exists tr, p. split; [reflexivity|exact He].
Qed.

Lemma stops_succeed U : stops_at_error U succeed.
Proof.
  intros proto tr. exists []. cbn. rewrite app_nil_r. split; [reflexivity|].
  intros e He. discriminate He.
Qed.

Lemma stops_fail (U : Prop) : U -> stops_at_error U (fail "unsupport type").
Proof.
  intros HU proto tr. exists []. cbn. rewrite app_nil_r. split; [reflexivity|].
  intros e He. inversion He; subst. left. split; [reflexivity|exact HU].
Qed.

Lemma stops_overwritten U p q : stops_at_error U (overwritten (invoke p) (invoke q)).
Proof.
  intros proto tr. exists [p; q]. unfold overwritten, invoke. cbn [fst snd].
  rewrite <- app_assoc. split; [reflexivity|].
  intros e He. right. exists (tr ++ [p]), q. rewrite <- app_assoc. split; [reflexivity|exact He].
Qed.

Lemma stops_andthen U a b :
  stops_at_error U a -> stops_at_error U b -> stops_at_error U (a >> b).
Proof.
  intros Ha Hb proto tr. unfold andthen.
  destruct (Ha proto tr) as (a1 & Hfa & Hea).
  destruct (a proto tr) as [tr1 [e1|]]; cbn [fst snd] in *.
  - exists a1. split; [exact Hfa|]. intros e He. apply Hea. exact He.
  - subst tr1. destruct (Hb proto (tr ++ a1)) as (b1 & Hfb & Heb).
    exists (a1 ++ b1). rewrite app_assoc. split; [exact Hfb|exact Heb].
Qed.

Lemma stops_weaken (U V : Prop) c :
  (U -> V) -> stops_at_error U c -> stops_at_error V c.
Proof.
  intros HUV Hc proto tr. destruct (Hc proto tr) as (added & Hf & He).
  exists added. split; [exact Hf|]. intros e H. destruct (He e H) as [[-> HU]|Hlast].
  - left. split; [reflexivity|apply HUV, HU].
  - right. exact Hlast.
Qed.

Lemma stops_write_args args : forall i,
  stops_at_error (Exists (fun a => supported a = false) args) (write_args i args).
Proof.
  induction args as [|a rest IH]; intros i; cbn [write_args].
  - apply stops_succeed.
  - apply stops_andthen.
    + destruct a; cbn [write_arg]; try apply stops_overwritten.
      apply stops_fail. left. reflexivity.
    + eapply stops_weaken; [|apply IH]. intros H. right. exact H.
Qed.

Lemma stops_call name args :
  stops_at_error (Exists (fun a => supported a = false) args) (call name args).
Proof.
  unfold call, writeMessageBody.
  repeat first [apply stops_andthen | apply stops_invoke | apply stops_write_args].
Qed.

(** The calls the argument loop adds never include a read or [Flush]. *)
Lemma write_args_builds proto args : forall i tr,
  exists added,
    fst (write_args i args proto tr) = tr ++ added /\ Forall builds added.
Proof.
  induction args as [|a rest IH]; intros i tr; cbn [write_args].
  - exists []. cbn. rewrite app_nil_r. split; [reflexivity|constructor].
  - unfold andthen. destruct (supported a) eqn:Ha.
    + destruct (write_arg_supported proto i a tr Ha) as (p & q & Hp & Hq & _ & Hrun).
      rewrite Hrun. destruct (proto (tr ++ [p]) q).
      * exists [p; q]. split; [reflexivity|]. repeat (apply Forall_cons; [assumption|]). constructor.
      * destruct (IH (i + 1) (tr ++ [p; q])) as (added & Hf & Hb).
        exists ([p; q] ++ added). rewrite app_assoc. split; [exact Hf|].
        repeat (apply Forall_cons; [assumption|]). exact Hb.
    + destruct a; try discriminate Ha. cbn.
      exists []. rewrite app_nil_r. split; [reflexivity|constructor].
Qed.

End CaseErrors.

(** X3: whatever the protocol answers, a case only adds calls to the
    connection, and when it returns an error this is either the error of
    the last call it made (nothing is called after a call whose error is
    looked at), or "unsupport type" with an argument of unsupported kind
    in the list. *)
Theorem call_error_origin (proto : Thrift.Protocol) (name : string)
  (args : list Thrift.arg) (tr : Thrift.trace) (e : Thrift.error) :
  snd (Thrift.call name args proto tr) = Some e ->
  (exists added, fst (Thrift.call name args proto tr) = tr ++ added) /\
  ((e = "unsupport type" /\ Exists (fun a => Thrift.supported a = false) args) \/
   (exists h p, fst (Thrift.call name args proto tr) = h ++ [p] /\ proto h p = Some e)).
Proof.
  intros He. destruct (stops_call name args proto tr) as (added & Hf & Horigin).
  split; [exists added; exact Hf|].
  destruct (Horigin e He) as [Hu|(h & p & Hfull & Hp)].
  - left. exact Hu.
  - right. exists h, p. rewrite Hf. split; assumption.
Qed.

Lemma call_error_origin_witness :
  exists h p,
    fst (Thrift.call "ping" []
           (fun _ p => match p with Thrift.Flush => Some "broken pipe" | _ => None end) [])
      = h ++ [p] /\
    p = Thrift.Flush.
Proof.
  pose (proto := fun (_ : Thrift.trace) (p : Thrift.prim) =>
                   match p with Thrift.Flush => Some "broken pipe" | _ => None end).
  destruct (call_error_origin proto "ping" [] [] "broken pipe" eq_refl)
    as [_ [[_ Hu]|(h & p & Hf & Hp)]].
  - exfalso. inversion Hu.
  - exists h, p. split; [exact Hf|].
    destruct p; cbn in Hp; try discriminate Hp. reflexivity.
Defined.

(** X4: whatever the protocol answers and whatever the arguments, the
    calls a case makes are writes followed by reads, and a read is only
    made after [Flush] was called as the last write and reported no
    error: no response is awaited for a request that was not flushed. *)
Theorem reads_follow_flush (proto : Thrift.Protocol) (name : string)
  (args : list Thrift.arg) (tr : Thrift.trace) :
  exists writes reads,
    fst (Thrift.call name args proto tr) = tr ++ writes ++ reads /\
    Forall (fun p => Thrift.is_write p = true) writes /\
    Forall (fun p => Thrift.is_write p = false) reads /\
    (reads <> [] ->
     exists h, writes = h ++ [Thrift.Flush] /\ proto (tr ++ h) Thrift.Flush = None).
Proof.
  destruct (write_args_builds proto args 0
              ((tr ++ [Thrift.WriteMessageBegin name Thrift.T_CALL 0])
                 ++ [Thrift.WriteStructBegin "whatever"]))
    as (added & Hf & Hb).
  assert (Hw : Forall (fun p => Thrift.is_write p = true) added)
    by (eapply Forall_impl; [|exact Hb]; intros p [Hp _]; exact Hp).
  clear Hb.
  unfold Thrift.call, Thrift.writeMessageBody, Thrift.andthen, Thrift.invoke.
  destruct (proto tr _) eqn:E1.
  { exists [Thrift.WriteMessageBegin name Thrift.T_CALL 0], [].
    repeat split; try (repeat constructor); congruence. }
  destruct (proto (tr ++ [_]) _) eqn:E2.
  { exists [Thrift.WriteMessageBegin name Thrift.T_CALL 0; Thrift.WriteStructBegin "whatever"], [].
    cbn [fst]. split; [list_eq|]. repeat split; try (repeat constructor); congruence. }
  destruct (Thrift.write_args 0 args proto _) as [t1 [e3|]]; cbn [fst snd] in Hf; subst t1.
  { exists (Thrift.WriteMessageBegin name Thrift.T_CALL 0
              :: Thrift.WriteStructBegin "whatever" :: added), [].
    cbn [fst]. rewrite app_nil_r. split; [list_eq|]. split; [repeat constructor; exact Hw|].
    split; [constructor|congruence]. }
  destruct (proto _ Thrift.WriteFieldStop) eqn:E4.
  { exists (Thrift.WriteMessageBegin name Thrift.T_CALL 0
              :: Thrift.WriteStructBegin "whatever" :: added ++ [Thrift.WriteFieldStop]), [].
    cbn [fst]. rewrite app_nil_r. split; [list_eq|].
    split; [repeat constructor; apply Forall_app; split; [exact Hw|repeat constructor]|].
    split; [constructor|congruence]. }
  destruct (proto _ Thrift.WriteStructEnd) eqn:E5.
  { exists (Thrift.WriteMessageBegin name Thrift.T_CALL 0
              :: Thrift.WriteStructBegin "whatever"
              :: added ++ [Thrift.WriteFieldStop; Thrift.WriteStructEnd]), [].
    cbn [fst]. rewrite app_nil_r. split; [list_eq|].
    split; [repeat constructor; apply Forall_app; split; [exact Hw|repeat constructor]|].
    split; [constructor|congruence]. }
  destruct (proto _ Thrift.WriteMessageEnd) eqn:E6.
  { exists (Thrift.WriteMessageBegin name Thrift.T_CALL 0
              :: Thrift.WriteStructBegin "whatever"
              :: added ++ [Thrift.WriteFieldStop; Thrift.WriteStructEnd;
                           Thrift.WriteMessageEnd]), [].
    cbn [fst]. rewrite app_nil_r. split; [list_eq|].
    split; [repeat constructor; apply Forall_app; split; [exact Hw|repeat constructor]|].
    split; [constructor|congruence]. }
  set (h := Thrift.WriteMessageBegin name Thrift.T_CALL 0
              :: Thrift.WriteStructBegin "whatever"
              :: added ++ [Thrift.WriteFieldStop; Thrift.WriteStructEnd;
                           Thrift.WriteMessageEnd]).
  assert (Hh : Forall (fun p => Thrift.is_write p = true) (h ++ [Thrift.Flush])).
  { apply Forall_app. split; [|repeat constructor]. subst h.
    repeat constructor. apply Forall_app. split; [exact Hw|repeat constructor]. }
  destruct (proto _ Thrift.Flush) eqn:E7.
  { exists (h ++ [Thrift.Flush]), []. cbn [fst]. rewrite app_nil_r. split; [subst h; list_eq|].
    split; [exact Hh|]. split; [constructor|congruence]. }
  assert (Hflush : proto (tr ++ h) Thrift.Flush = None).
  { rewrite <- E7. f_equal. subst h. list_eq. }
  destruct (proto _ Thrift.ReadMessageBegin) eqn:E8.
  { exists (h ++ [Thrift.Flush]), [Thrift.ReadMessageBegin].
    cbn [fst]. split; [subst h; list_eq|]. split; [exact Hh|].
    split; [repeat constructor|]. intros _. exists h. split; [reflexivity|exact Hflush]. }
  destruct (proto _ (Thrift.Skip _)) eqn:E9.
  { exists (h ++ [Thrift.Flush]), [Thrift.ReadMessageBegin; Thrift.Skip Thrift.T_STRUCT].
    cbn [fst]. split; [subst h; list_eq|]. split; [exact Hh|].
    split; [repeat constructor|]. intros _. exists h. split; [reflexivity|exact Hflush]. }
  exists (h ++ [Thrift.Flush]),
         [Thrift.ReadMessageBegin; Thrift.Skip Thrift.T_STRUCT; Thrift.ReadMessageEnd].
  cbn [fst]. split; [subst h; list_eq|]. split; [exact Hh|].
  split; [repeat constructor|]. intros _. exists h. split; [reflexivity|exact Hflush].
Qed.

(** ** The worker loop *)

Section WorkerFacts.
Import Thrift Worker Observed.

Variable fn : Case.
Variable c : connection.

Lemma process_loop_shape n : forall i tr,
  (calls (process_loop fn c n i tr) <= n)%nat /\
  (printed (process_loop fn c n i tr) = None ->
   calls (process_loop fn c n i tr) = n /\
   length (samples (process_loop fn c n i tr)) = n) /\
  (forall e, printed (process_loop fn c n i tr) = Some e ->
   calls (process_loop fn c n i tr) = S (length (samples (process_loop fn c n i tr)))).
Proof.
  induction n as [|n IH]; intros i tr; cbn [process_loop].
  - cbn. repeat split; auto; discriminate.
  - destruct (fn (proto c) tr) as [tr' [e|]]; cbn [calls samples printed length].
    + repeat split; try lia; try discriminate.
    + destruct (IH (S i) tr') as (Hle & Hnone & Hsome).
      repeat split; try lia.
      * apply Hnone in H. lia.
      * apply Hnone in H. lia.
      * intros e He. rewrite (Hsome e He). reflexivity.
Qed.


Lemma process_loop_first_failure e m : forall n i,
  (m < n)%nat ->
  (forall j, (i <= j < i + m)%nat -> snd (fn (proto c) (history fn (proto c) j)) = None) ->
  snd (fn (proto c) (history fn (proto c) (i + m))) = Some e ->
  process_loop fn c n i (history fn (proto c) i) =
    {| calls := S m;
       samples := map (fun k => Z.quot (elapsed c k) 1000) (seq i m);
       printed := Some e |}.
Proof.
  induction m as [|m IH]; intros n i Hn Hbefore Hfail;
    (destruct n as [|n]; [lia|]); cbn [process_loop seq map].
  - rewrite Nat.add_0_r in Hfail.
    destruct (fn (proto c) (history fn (proto c) i)) as [tr' [e'|]];
      cbn [snd] in Hfail; [|discriminate Hfail].
    inversion Hfail; subst. reflexivity.
  - pose proof (Hbefore i ltac:(lia)) as Hi.
    assert (Hnext : history fn (proto c) (S i) = fst (fn (proto c) (history fn (proto c) i)))
      by reflexivity.
    destruct (fn (proto c) (history fn (proto c) i)) as [tr' [e'|]];
      cbn [snd fst] in Hi, Hnext; [discriminate Hi|].
    subst tr'. rewrite (IH n (S i)).
    + reflexivity.
    + lia.
    + intros j Hj. apply Hbefore. lia.
    + rewrite <- Hfail. do 3 f_equal. lia.
Qed.

End WorkerFacts.

(** X5: a worker whose connection opens calls the case at most [count]
    times.  When it printed no error it made all [count] calls and sent
    one sample for each; when it printed an error it sent one sample
    less than it made calls: the failed call is its last and leaves no
    sample. *)
Theorem process_counts (fn : Thrift.Case) (c : Worker.connection) (count : Z)
  (r : Worker.result) :
  Worker.process fn c count = Done r ->
  (Worker.calls r <= Z.to_nat count)%nat /\
  (length (Worker.samples r) <= Z.to_nat count)%nat /\
  (Worker.printed r = None ->
   Worker.calls r = Z.to_nat count /\ length (Worker.samples r) = Z.to_nat count) /\
  (forall e, Worker.printed r = Some e ->
   Worker.calls r = S (length (Worker.samples r))).
Proof.
  unfold Worker.process. intros H. destruct (Worker.open_error c); [discriminate H|].
  inversion H; subst r.
  destruct (process_loop_shape fn c (Z.to_nat count) 0%nat []) as (Hle & Hnone & Hsome).
  split; [exact Hle|]. split; [|split; [exact Hnone|exact Hsome]].
  destruct (Worker.printed (Worker.process_loop fn c (Z.to_nat count) 0 [])) as [e|] eqn:E.
  - specialize (Hsome e eq_refl). lia.
  - specialize (Hnone eq_refl). lia.
Qed.

Lemma process_counts_witness :
  (Worker.calls {| Worker.calls := 2; Worker.samples := [120%Z]; Worker.printed := Some "EOF" |}
   <= Z.to_nat 4)%nat.
Proof.
  apply (process_counts Dispatcher.ping
    {| Worker.proto := fun h _ => if (Nat.ltb 9 (length h)) then Some "EOF" else None;
       Worker.open_error := None;
       Worker.elapsed := fun k => 120500 + Z.of_nat k |} 4).
  reflexivity.
Defined.



(** X7: the worker stops at the first call that fails.  If its calls
    number 0 to k-1 succeed and call number k (k < count) fails with e,
    each made on the connection as the calls before left it, then the
    worker makes k+1 calls, sends the k samples of the successful ones,
    prints e and makes no further call. *)
Theorem process_first_failure (fn : Thrift.Case) (c : Worker.connection)
  (count : Z) (k : nat) (e : Thrift.error) :
  Worker.open_error c = None ->
  (k < Z.to_nat count)%nat ->
  (forall j, (j < k)%nat ->
     snd (fn (Worker.proto c) (Observed.history fn (Worker.proto c) j)) = None) ->
  snd (fn (Worker.proto c) (Observed.history fn (Worker.proto c) k)) = Some e ->
  Worker.process fn c count =
    Done {| Worker.calls := S k;
            Worker.samples := Observed.durations c k;
            Worker.printed := Some e |}.
Proof.
  intros Hopen Hk Hbefore Hfail. unfold Worker.process. rewrite Hopen.
  change (@nil Thrift.prim) with (Observed.history fn (Worker.proto c) 0).
  rewrite (process_loop_first_failure fn c e k).
  - reflexivity.
  - exact Hk.
  - intros j Hj. apply Hbefore. lia.
  - exact Hfail.
Qed.

Lemma process_first_failure_witness :
  Worker.process Dispatcher.ping
    {| Worker.proto := fun h _ => if (Nat.ltb 9 (length h)) then Some "EOF" else None;
       Worker.open_error := None;
       Worker.elapsed := fun k => 120500 + Z.of_nat k |} 4 =
  Done {| Worker.calls := 2; Worker.samples := [120]; Worker.printed := Some "EOF" |}.
Proof.
  apply (process_first_failure Dispatcher.ping
    {| Worker.proto := fun h _ => if (Nat.ltb 9 (length h)) then Some "EOF" else None;
       Worker.open_error := None;
       Worker.elapsed := fun k => 120500 + Z.of_nat k |} 4 1 "EOF").
  - reflexivity.
  - cbn. lia.
  - intros j Hj. assert (j = 0%nat) as -> by lia. reflexivity.
  - reflexivity.
Defined.

(** ** Quicksort: ranges and bounds *)

Section SortBounds.
Import Slice.

Lemma partition_loop_split pivot n1 n2 : forall values i j,
  Sorting.partition_loop pivot (n1 + n2) values i j =
  (r <- Sorting.partition_loop pivot n1 values i j ;;
   Sorting.partition_loop pivot n2 (fst r) (snd r) (j + Z.of_nat n1)).
Proof.
  induction n1 as [|n1 IH]; intros values i j.
  - cbn. rewrite Z.add_0_r. reflexivity.
  - cbn [Nat.add Sorting.partition_loop].
    destruct (get values j) as [|vj]; cbn [obind]; [reflexivity|].
    destruct (pivot >? vj).
    + destruct (get values i) as [|vi]; cbn [obind]; [reflexivity|].
      destruct (set values i vj) as [|v1]; cbn [obind]; [reflexivity|].
      destruct (set v1 j vi) as [|v2]; cbn [obind]; [reflexivity|].
      rewrite IH. replace (j + 1 + Z.of_nat n1) with (j + Z.of_nat (S n1)) by lia.
      reflexivity.
    + rewrite IH. replace (j + 1 + Z.of_nat n1) with (j + Z.of_nat (S n1)) by lia.
      reflexivity.
Qed.

(** A range that starts inside the slice and ends behind it: the loop
    runs to the end of the slice and then reads one element too far. *)
Lemma partition_overrun values pre pivot rest l r :
  values = pre ++ pivot :: rest ->
  l = Z.of_nat (length pre) -> len values <= r ->
  Sorting.partition values l r = Panic (IndexOutOfRange (len values) (len values)).
Proof.
  intros -> -> Hr. unfold Sorting.partition.
  rewrite (get_at _ pre pivot rest) by reflexivity. cbn [obind].
  assert (Hlen : len (pre ++ pivot :: rest) =
                 Z.of_nat (length pre) + 1 + Z.of_nat (length rest))
    by (unfold len; rewrite length_app; cbn [length]; lia).
  rewrite Hlen in *.
  replace (Z.to_nat (r - Z.of_nat (length pre)))
    with (length rest + S (Z.to_nat (r - Z.of_nat (length pre)) - length rest - 1))%nat by lia.
  rewrite partition_loop_split.
  destruct (partition_loop_spec pivot pre [] rest [] [])
    as (lows & highs & Heq & Hperm & _); [constructor|constructor|].
  cbn [app length] in Heq. change (Z.of_nat 0) with 0 in Heq.
  rewrite !Z.add_0_r, !app_nil_r in Heq. rewrite Heq. cbn [obind fst snd Sorting.partition_loop].
  apply Permutation_length in Hperm. cbn [app] in Hperm. rewrite length_app in Hperm.
  rewrite get_out_of_range.
  - cbn [obind]. unfold len. rewrite !length_app. cbn [length]. rewrite length_app.
    do 2 f_equal; lia.
  - right. unfold len. rewrite !length_app. cbn [length]. rewrite length_app. lia.
Qed.

Lemma sort_out_of_range values l r :
  l < r -> l < 0 \/ len values <= r ->
  exists i, Sorting.sort values l r = Panic (IndexOutOfRange i (len values)).
Proof.
  intros Hlr Hout. pose proof (sort_unfold values l r) as Hs.
  destruct (Z_ge_dec l r); [lia|].
  destruct (Z_lt_dec l 0) as [Hneg|Hpos]; [|destruct (Z_le_dec (len values) l) as [Hbig|Hin]].
  - exists l. rewrite Hs. unfold Sorting.partition. rewrite get_out_of_range by lia. reflexivity.
  - exists l. rewrite Hs. unfold Sorting.partition. rewrite get_out_of_range by lia. reflexivity.
  - exists (len values). rewrite Hs.
    destruct (split_range values l l) as (pre & mid & post & Hv & Hpre & Hmid); [lia|lia|].
    destruct mid as [|pivot [|x mid]]; cbn [length] in Hmid; try lia.
    rewrite (partition_overrun values pre pivot post l r); [reflexivity|exact Hv|exact Hpre|lia].
Qed.

Lemma sort_in_range values l r :
  0 <= l -> l <= r -> r < len values ->
  exists mid',
    Sorting.sort values l r =
      Done (firstn (Z.to_nat l) values ++ mid' ++ skipn (Z.to_nat (r + 1)) values) /\
    Permutation (firstn (Z.to_nat (r - l + 1)) (skipn (Z.to_nat l) values)) mid' /\
    StronglySorted Z.le mid'.
Proof.
  unfold len. intros Hl Hlr Hr.
  replace (skipn (Z.to_nat (r + 1)) values)
    with (skipn (Z.to_nat (r - l + 1)) (skipn (Z.to_nat l) values))
    by (rewrite skipn_skipn; f_equal; lia).
  apply (sort_segment (length (firstn (Z.to_nat (r - l + 1)) (skipn (Z.to_nat l) values)))).
  - lia.
  - rewrite !firstn_skipn. reflexivity.
  - rewrite length_firstn. lia.
  - rewrite length_firstn, length_skipn. lia.
Qed.

End SortBounds.

(** X8: on a range [l..r] inside the slice, [sort] puts the elements of
    the range in ascending order and leaves every element before [l]
    and behind [r] where it was. *)
Theorem sort_range (values : list Z) (l r : Z) :
  0 <= l -> l <= r -> r < Slice.len values ->
  exists mid',
    Sorting.sort values l r =
      Done (firstn (Z.to_nat l) values ++ mid' ++ skipn (Z.to_nat (r + 1)) values) /\
    Permutation (firstn (Z.to_nat (r - l + 1)) (skipn (Z.to_nat l) values)) mid' /\
    Sorted Z.le mid'.
Proof.
  intros Hl Hlr Hr. destruct (sort_in_range values l r Hl Hlr Hr) as (mid' & Heq & Hperm & Hs).
  exists mid'. repeat split; auto. apply StronglySorted_Sorted. exact Hs.
Qed.

Lemma sort_range_witness :
  exists mid',
    Sorting.sort [9; 7; 5; 3; 1] 1 3 = Done ([9] ++ mid' ++ [1]) /\
    Permutation [7; 5; 3] mid' /\ Sorted Z.le mid'.
Proof.
  apply (sort_range [9; 7; 5; 3; 1] 1 3); cbn; lia.
Defined.

(** X9: [sort] returns exactly when the range is empty or a single
    index (r <= l, whatever the bounds are; the slice is then left as it
    is) or lies inside the slice; for l < r with l < 0 or r >= len it
    stops on an index-out-of-range panic. *)
Theorem sort_returns_iff (values : list Z) (l r : Z) :
  ((exists values', Sorting.sort values l r = Done values') <->
   (r <= l \/ (0 <= l /\ r < Slice.len values))) /\
  (r <= l -> Sorting.sort values l r = Done values) /\
  (l < r -> l < 0 \/ Slice.len values <= r ->
   exists i, Sorting.sort values l r = Panic (IndexOutOfRange i (Slice.len values))).
Proof.
  assert (Hempty : r <= l -> Sorting.sort values l r = Done values).
  { intros Hrl. rewrite sort_unfold. destruct (Z_ge_dec l r); [reflexivity|lia]. }
  split; [|split; [exact Hempty|apply sort_out_of_range]].
  split.
  - intros (values' & Heq).
    destruct (Z_le_dec r l) as [Hrl|Hlr]; [left; exact Hrl|right].
    destruct (Z_lt_dec l 0) as [Hneg|Hpos];
      [|destruct (Z_le_dec (Slice.len values) r) as [Hbig|Hin]; [|lia]].
    + destruct (sort_out_of_range values l r) as (i & Hp); [lia|lia|congruence].
    + destruct (sort_out_of_range values l r) as (i & Hp); [lia|lia|congruence].
  - intros [Hrl|[Hl Hr]].
    + exists values. apply Hempty. exact Hrl.
    + destruct (Z_le_dec r l) as [Hrl|Hlr]; [exists values; apply Hempty; exact Hrl|].
      destruct (sort_in_range values l r) as (mid' & Heq & _); [lia|lia|lia|].
      eexists. exact Heq.
Qed.

(** ** Lookups and reports *)

Section ReportFacts.
Import Slice Report.

Lemma cut_index_range L d :
  2 <= L -> 2 <= d -> L * (d - 1) <= GoInt.max_int ->
  0 <= cut_index L d <= L - 2.
Proof.
  intros HL Hd Hmax. rewrite cut_index_exact by lia.
  assert (1 <= L * (d - 1) / d) by (apply Z.div_le_lower_bound; nia).
  assert (L * (d - 1) / d < L) by (apply Z.div_lt_upper_bound; nia).
  lia.
Qed.

Lemma cut_index_small L d :
  0 <= L -> 0 < d -> L * (d - 1) < d -> L * (d - 1) <= GoInt.max_int ->
  cut_index L d = -1.
Proof.
  intros HL Hd Hsmall Hmax. rewrite cut_index_exact by lia.
  rewrite Z.div_small by nia. reflexivity.
Qed.

Lemma whole_sort (ch : list Z) :
  exists s, Sorting.sort ch 0 (len ch - 1) = Done s /\
            Permutation ch s /\ StronglySorted Z.le s.
Proof.
  destruct (sort_segment (length ch) ch [] ch [] 0 (len ch - 1))
    as (s & Heq & Hperm & Hs).
  - lia.
  - rewrite app_nil_r. reflexivity.
  - reflexivity.
  - unfold len. lia.
  - cbn [app] in Heq. rewrite app_nil_r in Heq. exists s. auto.
Qed.

Lemma send_percentiles_ok s : forall table out,
  s <> [] ->
  Forall (fun pd => 0 < snd pd /\ 0 <= cut_index (len s) (snd pd) < len s) table ->
  send_percentiles s (len s) table out =
    (out ++ map (fun pd => Percent (fst pd)
                             (Qmake (sample_at s (cut_index (len s) (snd pd))) 1000)) table
         ++ [Longest 100 (Qmake (last s 0) 1000)],
     None).
Proof.
  intros table out Hs. revert out.
  induction table as [|[p d] table IH]; intros out Htable; cbn [send_percentiles map app].
  - unfold longest. cbn [fst snd]. rewrite v_sentinel by (auto; lia). reflexivity.
  - inversion Htable as [|? ? [Hd Hidx] Hrest]; subst. cbn [fst snd] in *.
    rewrite v_cut by assumption. rewrite IH by assumption.
    rewrite <- app_assoc. reflexivity.
Qed.

Lemma sorted_last_max s x :
  StronglySorted Z.le s -> In x s -> x <= last s 0.
Proof.
  intros Hs Hx. assert (Hne : s <> []) by (intros ->; contradiction).
  destruct (In_nth s x 0 Hx) as (i & Hi & Hnth).
  rewrite <- (sample_at_last s Hne), <- Hnth.
  change (nth i s 0) with (nth i s 0).
  replace (nth i s 0) with (sample_at s (Z.of_nat i))
    by (unfold sample_at; rewrite Nat2Z.id; reflexivity).
  apply sorted_sample_at; [apply StronglySorted_Sorted; exact Hs| |]; unfold len; lia.
Qed.

Lemma collect_permutation addr C R dnano ch ch' :
  Permutation ch ch' ->
  collect addr C R dnano ch = collect addr C R dnano ch'.
Proof.
  intros Hperm. unfold collect.
  assert (Hlen : len ch = len ch')
    by (unfold len; rewrite (Permutation_length Hperm); reflexivity).
  destruct (whole_sort ch) as (s & Heq & Hp & Hs).
  destruct (whole_sort ch') as (s' & Heq' & Hp' & Hs').
  rewrite Heq, Heq', <- Hlen.
  assert (s = s') as ->; [|reflexivity].
  apply sorted_permutation_eq; auto.
  eapply Permutation_trans; [apply Permutation_sym; exact Hp|].
  eapply Permutation_trans; [exact Hperm|exact Hp'].
Qed.

Lemma collect_report_ok addr C R dnano ch :
  2 <= len ch -> 99 * len ch <= GoInt.max_int ->
  exists s,
    StronglySorted Z.le s /\ Permutation ch s /\
    collect addr C R dnano ch =
      ([ ServerAddress addr;
         Blank;
         ConcurrencyLevel C;
         TimeTaken (inject_Z dnano / inject_Z (10 ^ 9));
         CompleteRequests (len ch);
         FailedRequests (GoInt.sub R (len ch));
         RequestPerSecond (fdiv (inject_Z (len ch)) (inject_Z dnano / inject_Z (10 ^ 9)));
         Blank;
         Heading ]
       ++ map (fun pd => Percent (fst pd)
                 (Qmake (sample_at s (cut_index (len ch) (snd pd))) 1000))
              percentiles
       ++ [Longest 100 (Qmake (last s 0) 1000)],
       None).
Proof.
  intros HL Hmax. destruct (whole_sort ch) as (s & Heq & Hperm & Hs).
  exists s. split; [exact Hs|]. split; [exact Hperm|].
  assert (Hlen : len ch = len s)
    by (unfold len; rewrite (Permutation_length Hperm); reflexivity).
  assert (Hne : s <> []) by (intros ->; cbn in Hlen; lia).
  unfold collect. rewrite Heq, Hlen. apply send_percentiles_ok; [exact Hne|].
  rewrite <- Hlen. unfold percentiles.
  repeat (apply Forall_cons;
          [cbn [snd]; split; [lia|];
           match goal with
           | |- 0 <= cut_index ?L ?d < _ =>
               pose proof (cut_index_range L d ltac:(lia) ltac:(lia) ltac:(lia)); lia
           end|]).
  apply Forall_nil.
Qed.

End ReportFacts.

(** X10: a lookup with a positive denominator d on L samples, with
    L * (d - 1) inside the range of [int], never reads behind the end of
    the samples.  When L * (d - 1) < d it reads index -1 and panics;
    otherwise it gives the sample at index L * (d - 1) / d - 1, which is
    at most L - 2, divided by 1000. *)
Theorem lookup_positive_denominator (s : list Z) (d : Z) :
  0 < d -> Slice.len s * (d - 1) <= GoInt.max_int ->
  (Slice.len s * (d - 1) < d ->
   Report.v s (Slice.len s) d = Panic (IndexOutOfRange (-1) (Slice.len s))) /\
  (d <= Slice.len s * (d - 1) ->
   0 <= Slice.len s * (d - 1) / d - 1 <= Slice.len s - 2 /\
   Report.v s (Slice.len s) d =
     Done (Qmake (Slice.sample_at s (Slice.len s * (d - 1) / d - 1)) 1000)).
Proof.
  intros Hd Hmax.
  assert (HL : 0 <= Slice.len s) by (unfold Slice.len; lia).
  split.
  - intros Hsmall. unfold Report.v. destruct (Z.leb_spec d 0); [lia|].
    rewrite cut_index_small by lia. rewrite get_out_of_range by lia. reflexivity.
  - intros Hbig.
    assert (2 <= d) by nia. assert (2 <= Slice.len s) by nia.
    pose proof (cut_index_range (Slice.len s) d ltac:(lia) ltac:(lia) Hmax) as Hr.
    rewrite v_cut by lia. rewrite cut_index_exact in * by lia. split; [lia|reflexivity].
Qed.

Lemma lookup_positive_denominator_witness :
  Report.v [10; 20; 30] (Slice.len [10; 20; 30]) 2 =
    Done (Qmake (Slice.sample_at [10; 20; 30] (Slice.len [10; 20; 30] * (2 - 1) / 2 - 1)) 1000).
Proof.
  apply (lookup_positive_denominator [10; 20; 30] 2).
  - lia.
  - rewrite max_int_value. cbn. lia.
  - cbn. lia.
Defined.

(** X11: with at least two samples (and 99 * L inside the range of
    [int]) [collect] sends the whole report and does not panic: the
    nine lines of the head, with L completed and R - L failed requests,
    the eight percentile lines in the order 50, 66, 75, 80, 90, 95, 98,
    99, each with the sample at its cut index in the sorted samples, and
    the line for 100% with the last of the sorted samples. *)
Theorem collect_full_report (addr : string) (C R dnano : Z) (ch : list Z) :
  2 <= Slice.len ch -> 99 * Slice.len ch <= GoInt.max_int ->
  exists s,
    Sorted Z.le s /\ Permutation ch s /\
    Report.collect addr C R dnano ch =
      ([ Report.ServerAddress addr;
         Report.Blank;
         Report.ConcurrencyLevel C;
         Report.TimeTaken (inject_Z dnano / inject_Z (10 ^ 9));
         Report.CompleteRequests (Slice.len ch);
         Report.FailedRequests (GoInt.sub R (Slice.len ch));
         Report.RequestPerSecond
           (Report.fdiv (inject_Z (Slice.len ch)) (inject_Z dnano / inject_Z (10 ^ 9)));
         Report.Blank;
         Report.Heading ]
       ++ map (fun pd => Report.Percent (fst pd)
                 (Qmake (Slice.sample_at s (Report.cut_index (Slice.len ch) (snd pd))) 1000))
              Report.percentiles
       ++ [Report.Longest 100 (Qmake (last s 0) 1000)],
       None).
Proof.
  intros HL Hmax.
  destruct (collect_report_ok addr C R dnano ch HL Hmax) as (s & Hs & Hperm & Heq).
  exists s. split; [apply StronglySorted_Sorted; exact Hs|]. split; assumption.
Qed.

Lemma collect_full_report_witness :
  exists s,
    Sorted Z.le s /\ Permutation [300; 100; 400; 200] s /\
    Report.collect ":6000" 2 5 2000000 [300; 100; 400; 200] =
      ([ Report.ServerAddress ":6000";
         Report.Blank;
         Report.ConcurrencyLevel 2;
         Report.TimeTaken (inject_Z 2000000 / inject_Z (10 ^ 9));
         Report.CompleteRequests (Slice.len [300; 100; 400; 200]);
         Report.FailedRequests (GoInt.sub 5 (Slice.len [300; 100; 400; 200]));
         Report.RequestPerSecond
           (Report.fdiv (inject_Z (Slice.len [300; 100; 400; 200]))
                        (inject_Z 2000000 / inject_Z (10 ^ 9)));
         Report.Blank;
         Report.Heading ]
       ++ map (fun pd => Report.Percent (fst pd)
                 (Qmake (Slice.sample_at s
                           (Report.cut_index (Slice.len [300; 100; 400; 200]) (snd pd))) 1000))
              Report.percentiles
       ++ [Report.Longest 100 (Qmake (last s 0) 1000)],
       None).
Proof.
  apply (collect_full_report ":6000" 2 5 2000000 [300; 100; 400; 200]).
  - cbn. lia.
  - rewrite max_int_value. cbn. lia.
Defined.

(** X12: for a number of samples L with 99 * L inside the range of
    [int], [collect] sends its whole report exactly when L >= 2; with
    no sample or a single one it sends the nine lines of the head and
    then panics on index -1. *)
Theorem collect_completes_iff (addr : string) (C R dnano : Z) (ch : list Z) :
  99 * Slice.len ch <= GoInt.max_int ->
  (snd (Report.collect addr C R dnano ch) = None <-> 2 <= Slice.len ch) /\
  (Slice.len ch < 2 ->
   snd (Report.collect addr C R dnano ch) =
     Some (IndexOutOfRange (-1) (Slice.len ch)) /\
   length (fst (Report.collect addr C R dnano ch)) = 9%nat).
Proof.
  intros Hmax.
  assert (Hsmall : Slice.len ch < 2 ->
            snd (Report.collect addr C R dnano ch) =
              Some (IndexOutOfRange (-1) (Slice.len ch)) /\
            length (fst (Report.collect addr C R dnano ch)) = 9%nat).
  { intros HL. destruct ch as [|d [|d' ch]].
    - split; reflexivity.
    - split; reflexivity.
    - unfold Slice.len in HL. cbn [length] in HL. lia. }
  split; [|exact Hsmall]. split.
  - intros Hnone. destruct (Z_lt_dec (Slice.len ch) 2) as [HL|HL]; [|lia].
    destruct (Hsmall HL) as [Hp _]. congruence.
  - intros HL. destruct (collect_report_ok addr C R dnano ch HL Hmax) as (s & _ & _ & Heq).
    rewrite Heq. reflexivity.
Qed.

Lemma collect_completes_iff_witness :
  snd (Report.collect ":6000" 1 1 300000 [250]) = Some (IndexOutOfRange (-1) 1) /\
  length (fst (Report.collect ":6000" 1 1 300000 [250])) = 9%nat.
Proof.
  apply (collect_completes_iff ":6000" 1 1 300000 [250]).
  - rewrite max_int_value. cbn. lia.
  - cbn. lia.
Defined.

(** X13: for every non-empty set of samples the line for 100% shows the
    largest sample: the lookup with denominator -1 on the sorted
    samples gives a collected sample that no other sample exceeds. *)
Theorem longest_is_maximum (ch : list Z) :
  ch <> [] ->
  exists s m,
    Sorting.sort ch 0 (Slice.len ch - 1) = Done s /\
    Report.v s (Slice.len ch) (snd Report.longest) = Done (Qmake m 1000) /\
    In m ch /\ Forall (fun x => x <= m) ch.
Proof.
  intros Hne. destruct (whole_sort ch) as (s & Heq & Hperm & Hs).
  assert (Hlen : Slice.len ch = Slice.len s)
    by (unfold Slice.len; rewrite (Permutation_length Hperm); reflexivity).
  assert (Hs_ne : s <> [])
    by (intros ->; apply Permutation_sym, Permutation_nil in Hperm; contradiction).
  exists s, (last s 0). split; [exact Heq|]. split; [|split].
  - rewrite Hlen. apply v_sentinel; [cbn; lia|exact Hs_ne].
  - eapply Permutation_in; [apply Permutation_sym; exact Hperm|].
    destruct (exists_last Hs_ne) as (s' & x & ->). rewrite last_last.
    apply in_or_app. right. left. reflexivity.
  - apply Forall_forall. intros x Hx. apply sorted_last_max; [exact Hs|].
    eapply Permutation_in; [exact Hperm|exact Hx].
Qed.

Lemma longest_is_maximum_witness :
  exists s m,
    Sorting.sort [30; 70; 20] 0 (Slice.len [30; 70; 20] - 1) = Done s /\
    Report.v s (Slice.len [30; 70; 20]) (snd Report.longest) = Done (Qmake m 1000) /\
    In m [30; 70; 20] /\ Forall (fun x => x <= m) [30; 70; 20].
Proof.
  apply (longest_is_maximum [30; 70; 20]). discriminate.
Defined.

(** X14: the report depends on which samples were received, not on the
    order they arrived in: two receptions that are permutations of each
    other give the same lines and the same outcome. *)
Theorem report_ignores_order (addr : string) (C R dnano : Z) (ch ch' : list Z) :
  Permutation ch ch' ->
  Report.collect addr C R dnano ch = Report.collect addr C R dnano ch'.
Proof. apply collect_permutation. Qed.

Lemma report_ignores_order_witness :
  Report.collect ":6000" 2 3 5000 [30; 10; 20] = Report.collect ":6000" 2 3 5000 [10; 20; 30].
Proof.
  apply (report_ignores_order ":6000" 2 3 5000 [30; 10; 20] [10; 20; 30]).
  apply perm_trans with (l' := [10; 30; 20]).
  - apply (Permutation_cons_app [10] [20] 30). apply Permutation_refl.
  - apply perm_skip. apply perm_swap.
Defined.

(** ** Runs: what the collector receives *)

Section ChannelFacts.
Import Thrift Worker Dispatcher.

Lemma interleaving_permutation ws ch :
  interleaving ws ch -> Permutation (concat ws) ch.
Proof.
  induction 1 as [ws Hws|before x w after s _ IH].
  - induction Hws as [|w ws Hw _ IHws]; cbn [concat]; [constructor|].
    subst w. exact IHws.
  - rewrite concat_app in *. cbn [concat] in *. cbn [app].
    apply Permutation_sym, Permutation_cons_app, Permutation_sym. exact IH.
Qed.

Lemma map_Done_inj {A : Type} (a b : list A) : map Done a = map Done b -> a = b.
Proof.
  revert b. induction a as [|x a IH]; intros [|y b] H; try discriminate H; [reflexivity|].
  inversion H. f_equal. apply IH. assumption.
Qed.

Lemma received_permutation rs ch :
  received (map Done rs) ch -> Permutation (concat (map samples rs)) ch.
Proof.
  intros (rs' & Hrs & Hch). apply map_Done_inj in Hrs. subst rs'.
  apply interleaving_permutation. exact Hch.
Qed.

(** Each result of a run belongs to the worker started at its place. *)
Lemma launch_results fn conns R C rs :
  map Done rs = launch fn conns R C ->
  Forall2 (fun r gc => process fn (conns (fst gc)) (snd gc) = Done r) rs (spawn R C).
Proof.
  unfold launch. generalize (spawn R C). intros l. revert rs.
  induction l as [|[gid count] l IH]; intros [|r rs] H; try discriminate H; constructor.
  - inversion H. cbn [fst snd]. congruence.
  - apply IH. inversion H. reflexivity.
Qed.

Lemma list_sum_Forall2 {A B : Type} (P : A -> B -> Prop) (f : A -> nat) (g : B -> nat) l l' :
  Forall2 P l l' ->
  ((forall a b, P a b -> (f a <= g b)%nat) ->
   (list_sum (map f l) <= list_sum (map g l'))%nat) /\
  ((forall a b, P a b -> f a = g b) ->
   list_sum (map f l) = list_sum (map g l')).
Proof.
  induction 1 as [|a b l l' Hab _ [IHle IHeq]]; cbn [map].
  - split; intros; reflexivity.
  - change (list_sum (f a :: map f l)) with (f a + list_sum (map f l))%nat.
    change (list_sum (g b :: map g l')) with (g b + list_sum (map g l'))%nat.
    split; intros Hall.
    + pose proof (Hall a b Hab). pose proof (IHle Hall). lia.
    + pose proof (Hall a b Hab). pose proof (IHeq Hall). lia.
Qed.

Lemma total_to_nat l :
  Forall (fun c => 0 <= c) l -> Z.of_nat (list_sum (map Z.to_nat l)) = total l.
Proof.
  induction 1 as [|c l Hc _ IH]; [reflexivity|]. cbn [map].
  change (list_sum (Z.to_nat c :: map Z.to_nat l))
    with (Z.to_nat c + list_sum (map Z.to_nat l))%nat.
  change (total (c :: l)) with (c + total l). lia.
Qed.

Lemma spawn_counts R C :
  0 < R <= GoInt.max_int -> 0 < C <= GoInt.max_int ->
  Forall (fun c => 0 <= c) (counts R C) /\ total (counts R C) = R.
Proof.
  intros HR HC.
  pose proof (quotient_succ_in_range R C HR ltac:(lia)) as Hadd.
  assert (Hq : Z.quot R C = R / C) by (apply Z.quot_div_nonneg; lia).
  assert (Hr : Z.rem R C = R mod C) by (apply Z.rem_mod_nonneg; lia).
  pose proof (Z.mod_pos_bound R C ltac:(lia)) as Hmod.
  pose proof (Z.div_pos R C ltac:(lia) ltac:(lia)) as Hdiv.
  split.
  - apply Forall_forall. intros c Hc. apply spawn_loop_counts in Hc.
    destruct Hc as [[-> _]|[-> Hlt]]; [lia|]. rewrite Hadd by lia. lia.
  - unfold counts, spawn. rewrite spawn_loop_total by (intros; apply Hadd; lia).
    rewrite Z2Nat.id, Hq, Hr by lia.
    pose proof (Z.div_mod R C ltac:(lia)). lia.
Qed.

Lemma received_length fn conns R C ch :
  received (launch fn conns R C) ch ->
  exists rs,
    Forall2 (fun r gc => process fn (conns (fst gc)) (snd gc) = Done r) rs (spawn R C) /\
    length ch = list_sum (map (fun r => length (samples r)) rs).
Proof.
  intros Hrec. pose proof Hrec as (rs & Hrs & _). exists rs.
  split; [apply launch_results; exact Hrs|].
  rewrite <- Hrs in Hrec. apply received_permutation, Permutation_length in Hrec.
  rewrite <- Hrec, length_concat, map_map. reflexivity.
Qed.

End ChannelFacts.

(** X15: in a run in which every connection opens, the collector
    receives at most R samples, so the number printed as failed
    requests, R - L, is not negative (and is computed without
    wrap-around). *)
Theorem run_bounded (fn : Thrift.Case) (conns : Z -> Worker.connection)
  (R C : Z) (ch : list Z) :
  0 < R <= GoInt.max_int -> 0 < C <= GoInt.max_int ->
  Dispatcher.received (Dispatcher.launch fn conns R C) ch ->
  0 <= Slice.len ch <= R /\
  GoInt.sub R (Slice.len ch) = R - Slice.len ch.
Proof.
  intros HR HC Hrec.
  destruct (received_length fn conns R C ch Hrec) as (rs & Hall & Hlen).
  destruct (spawn_counts R C HR HC) as [Hpos Htotal].
  assert (Hle : (length ch <= list_sum (map (fun gc => Z.to_nat (snd gc)) (Dispatcher.spawn R C)))%nat).
  { rewrite Hlen. eapply (proj1 (list_sum_Forall2 _ _ _ _ _ Hall)).
    intros r [gid count] Hp. cbn [fst snd] in *.
    unfold Worker.process in Hp. destruct (Worker.open_error (conns gid)); [discriminate Hp|].
    inversion Hp; subst r.
    destruct (process_loop_shape fn (conns gid) (Z.to_nat count) 0%nat []) as (Hc & Hnone & Hsome).
    destruct (Worker.printed (Worker.process_loop fn (conns gid) (Z.to_nat count) 0 [])) as [e|] eqn:E.
    - specialize (Hsome e eq_refl). lia.
    - specialize (Hnone eq_refl). lia. }
  rewrite <- (map_map snd Z.to_nat) in Hle. fold (Dispatcher.counts R C) in Hle.
  pose proof (total_to_nat _ Hpos) as Hsum. rewrite Htotal in Hsum.
  assert (Hbound : 0 <= Slice.len ch <= R) by (unfold Slice.len; lia).
  split; [exact Hbound|].
  unfold GoInt.sub. apply wrap_id. unfold GoInt.in_int.
  rewrite min_int_value. lia.
Qed.

Lemma run_bounded_witness :
  0 <= Slice.len [250] <= 1 /\ GoInt.sub 1 (Slice.len [250]) = 1 - Slice.len [250].
Proof.
  pose (c := {| Worker.proto := fun _ _ => None;
                Worker.open_error := None;
                Worker.elapsed := fun _ => 250999 |}).
  apply (run_bounded Dispatcher.ping (fun _ => c) 1 1 [250]).
  - rewrite max_int_value. lia.
  - rewrite max_int_value. lia.
  - exists [ {| Worker.calls := 1; Worker.samples := [250]; Worker.printed := None |} ].
    split; [reflexivity|].
    apply (Dispatcher.interleaving_next [] 250 [] [] []).
    apply Dispatcher.interleaving_done. repeat constructor.
Defined.



(** X17: the report of a run does not depend on how the samples of the
    workers were interleaved on the channel: two receptions of the same
    results give the same lines (for the same measured time). *)
Theorem run_report_deterministic (results : list (outcome Worker.result))
  (addr : string) (C R dnano : Z) (ch ch' : list Z) :
  Dispatcher.received results ch -> Dispatcher.received results ch' ->
  Report.collect addr C R dnano ch = Report.collect addr C R dnano ch'.
Proof.
  intros Hch Hch'. pose proof Hch as (rs & Hrs & _). subst results.
  apply received_permutation in Hch. apply received_permutation in Hch'.
  apply collect_permutation.
  eapply Permutation_trans; [apply Permutation_sym; exact Hch|exact Hch'].
Qed.

Lemma run_report_deterministic_witness :
  Report.collect ":6000" 2 3 9000 [10; 20; 30] = Report.collect ":6000" 2 3 9000 [30; 10; 20].
Proof.
  apply (run_report_deterministic
           [ Done {| Worker.calls := 2; Worker.samples := [10; 20]; Worker.printed := None |};
             Done {| Worker.calls := 1; Worker.samples := [30]; Worker.printed := None |} ]).
  - exists [ {| Worker.calls := 2; Worker.samples := [10; 20]; Worker.printed := None |};
             {| Worker.calls := 1; Worker.samples := [30]; Worker.printed := None |} ].
    split; [reflexivity|].
    apply (Dispatcher.interleaving_next [] 10 [20] [[30]] [20; 30]).
    apply (Dispatcher.interleaving_next [] 20 [] [[30]] [30]).
    apply (Dispatcher.interleaving_next [[]] 30 [] [] []).
    apply Dispatcher.interleaving_done. repeat constructor.
  - exists [ {| Worker.calls := 2; Worker.samples := [10; 20]; Worker.printed := None |};
             {| Worker.calls := 1; Worker.samples := [30]; Worker.printed := None |} ].
    split; [reflexivity|].
    apply (Dispatcher.interleaving_next [[10; 20]] 30 [] [] [10; 20]).
    apply (Dispatcher.interleaving_next [] 10 [20] [[]] [20]).
    apply (Dispatcher.interleaving_next [] 20 [] [[]] []).
    apply Dispatcher.interleaving_done. repeat constructor.
Defined.

(** ** Start-up and idle workers *)

(** X18: with fewer requests than workers (0 < R < C), worker number
    gid is started with one request when gid < R and with none
    otherwise.  A worker with no request still opens its connection: it
    then makes no call and sends nothing, and when the connection does
    not open its goroutine panics all the same. *)
Theorem idle_workers (fn : Thrift.Case) (conns : Z -> Worker.connection) (R C gid : Z) :
  0 < R -> R < C <= GoInt.max_int -> 0 <= gid < C ->
  nth_error (Dispatcher.launch fn conns R C) (Z.to_nat gid) =
    Some (Worker.process fn (conns gid) (if gid <? R then 1 else 0)) /\
  (Worker.open_error (conns gid) = None ->
   Worker.process fn (conns gid) 0 =
     Done {| Worker.calls := 0; Worker.samples := []; Worker.printed := None |}) /\
  (forall e, Worker.open_error (conns gid) = Some e ->
   nth_error (Dispatcher.launch fn conns R C) (Z.to_nat gid) = Some (Panic (PanicMsg e))).
Proof.
  intros HR HC Hgid.
  assert (Hnth : nth_error (Dispatcher.launch fn conns R C) (Z.to_nat gid) =
            Some (Worker.process fn (conns gid) (if gid <? R then 1 else 0))).
  { unfold Dispatcher.launch, Dispatcher.spawn.
    rewrite nth_error_map, spawn_loop_nth by lia. cbn [option_map].
    rewrite Z2Nat.id, Z.add_0_l by lia.
    rewrite Z.rem_small, Z.quot_small by lia.
    destruct (gid <? R); reflexivity. }
  split; [exact Hnth|]. split.
  - intros Hopen. unfold Worker.process. rewrite Hopen. reflexivity.
  - intros e Hopen. rewrite Hnth. unfold Worker.process. rewrite Hopen. reflexivity.
Qed.

Lemma idle_workers_witness :
  nth_error
    (Dispatcher.launch Dispatcher.ping
       (fun gid => {| Worker.proto := fun _ _ => None;
                      Worker.open_error := if gid =? 2 then Some "refused" else None;
                      Worker.elapsed := fun _ => 0 |}) 1 3)
    (Z.to_nat 2) = Some (Panic (PanicMsg "refused")).
Proof.
  apply (idle_workers Dispatcher.ping
           (fun gid => {| Worker.proto := fun _ _ => None;
                          Worker.open_error := if gid =? 2 then Some "refused" else None;
                          Worker.elapsed := fun _ => 0 |}) 1 3 2).
  - lia.
  - rewrite max_int_value. lia.
  - lia.
  - reflexivity.
Defined.

(** ** Start-up of [main] *)

Lemma get_transport_wrapper_cases (w : string) :
  (In w ["none"; "buffered"; "framed"] /\
   exists tw, Startup.get_transport_wrapper w = Done tw) \/
  (~ In w ["none"; "buffered"; "framed"] /\
   Startup.get_transport_wrapper w = Panic (PanicMsg "invalid transport wrapper")).
Proof.
  unfold Startup.get_transport_wrapper.
  destruct (String.eqb_spec w "none") as [->|Hn];
    [|destruct (String.eqb_spec w "buffered") as [->|Hb];
      [|destruct (String.eqb_spec w "framed") as [->|Hf]]].
  - left. split; [cbn; auto|eexists; reflexivity].
  - left. split; [cbn; auto|eexists; reflexivity].
  - left. split; [cbn; auto|eexists; reflexivity].
  - right. split; [|reflexivity]. intros [H|[H|[H|[]]]]; congruence.
Qed.

Lemma makechan_cases (limit size : Z) :
  (0 <= size <= limit /\ Startup.makechan limit size = Done size) \/
  ((size < 0 \/ limit < size) /\
   Startup.makechan limit size = Panic (PanicMsg "makechan: size out of range")).
Proof.
  unfold Startup.makechan.
  destruct (Z.ltb_spec size 0); destruct (Z.ltb_spec limit size); cbn [orb];
    [right|right|right|left]; split; try reflexivity; lia.
Qed.

Lemma doubled_concurrency_wraps (C : Z) :
  2 ^ 62 <= C <= GoInt.max_int -> GoInt.mul C 2 < 0.
Proof.
  rewrite max_int_value. intros HC. unfold GoInt.mul, GoInt.wrap, GoInt.bits.
  change (2 ^ (64 - 1)) with 9223372036854775808.
  change (2 ^ 64) with 18446744073709551616.
  change (2 ^ 62) with 4611686018427387904 in HC.
  replace (C * 2 + 9223372036854775808)
    with (C * 2 - 9223372036854775808 + 1 * 18446744073709551616) by lia.
  rewrite Z.mod_add by lia. rewrite Z.mod_small by lia. lia.
Qed.

(** X19: [main] reaches the loop that starts the workers exactly when
    concurrency and requests are positive, the wrapper name is "none",
    "buffered" or "framed", and the channel capacity [concurrency*2] (as
    an [int], so with wrap-around) is neither negative nor above what
    the runtime allocates.  Otherwise it panics before any worker is
    started: on the concurrency first, then on the requests, then on the
    wrapper name, then on the channel; from concurrency 2^62 on the
    capacity is negative, whatever the runtime allows. *)
Theorem start_guards (limit R C : Z) (w : string) :
  (C <= 0 ->
   Startup.main limit R C w = Panic (PanicMsg "Invalid number of concurrency")) /\
  (0 < C -> R <= 0 ->
   Startup.main limit R C w = Panic (PanicMsg "Invalid number of requests")) /\
  (0 < C -> 0 < R -> ~ In w ["none"; "buffered"; "framed"] ->
   Startup.main limit R C w = Panic (PanicMsg "invalid transport wrapper")) /\
  (0 < C -> 0 < R -> In w ["none"; "buffered"; "framed"] ->
   GoInt.mul C 2 < 0 \/ limit < GoInt.mul C 2 ->
   Startup.main limit R C w = Panic (PanicMsg "makechan: size out of range")) /\
  (2 ^ 62 <= C <= GoInt.max_int -> GoInt.mul C 2 < 0) /\
  ((exists tw, Startup.main limit R C w = Done (tw, Dispatcher.spawn R C)) <->
   (0 < C /\ 0 < R /\ In w ["none"; "buffered"; "framed"] /\
    0 <= GoInt.mul C 2 <= limit)).
Proof.
  unfold Startup.main.
  destruct (Z.leb_spec C 0) as [HC|HC].
  { split; [reflexivity|]. split; [intros; lia|]. split; [intros; lia|].
    split; [intros; lia|]. split; [apply doubled_concurrency_wraps|]. split.
    - intros [tw H]. discriminate H.
    - intros (H & _). lia. }
  destruct (Z.leb_spec R 0) as [HR|HR].
  { split; [intros; lia|]. split; [reflexivity|]. split; [intros; lia|].
    split; [intros; lia|]. split; [apply doubled_concurrency_wraps|]. split.
    - intros [tw H]. discriminate H.
    - intros (_ & H & _). lia. }
  split; [intros; lia|]. split; [intros; lia|].
  destruct (get_transport_wrapper_cases w) as [[Hw [tw Htw]]|[Hw Htw]]; rewrite Htw;
    cbn [obind].
  - destruct (makechan_cases limit (GoInt.mul C 2)) as [[Hsize Hch]|[Hsize Hch]];
      rewrite Hch; cbn [obind].
    + split; [intros _ _ Hnot; contradiction|]. split; [intros; lia|].
      split; [apply doubled_concurrency_wraps|]. split.
      * intros _. repeat split; try lia. exact Hw.
      * intros _. exists tw. reflexivity.
    + split; [intros _ _ Hnot; contradiction|]. split; [reflexivity|].
      split; [apply doubled_concurrency_wraps|]. split.
      * intros [tw' H]. discriminate H.
      * intros (_ & _ & _ & H). lia.
  - split; [reflexivity|]. split; [intros _ _ Hin; contradiction|].
    split; [apply doubled_concurrency_wraps|]. split.
    + intros [tw H]. discriminate H.
    + intros (_ & _ & Hin & _). contradiction.
Qed.
